(** * Legacy descriptor bridge ([descriptor/descriptor.go])

    A shallow embedding of package [descriptor]: the derivation of the legacy
    raw descriptor (GZIP'd file descriptor plus index path) from a reflective
    descriptor, the two process-wide caches, the decoding of raw descriptors
    and the navigation along an index path.

    The packages the code imports ([protoreflect], [protodesc], [proto],
    [protoimpl], [compress/gzip], [io/ioutil]) are collaborators: their types
    and functions are parameters, gathered in the classes [Reflection] and
    [Collaborators]; what a theorem needs of them is stated in [Faithful]. *)

From Stdlib Require Import ZArith Lia.
From stdpp Require Import gmap list strings.
From Equations Require Import Equations.

Local Open Scope Z_scope.
Set Warnings "-register-all".

(** ** Go values *)

Definition byte := Byte.byte.

(** An [error] value, as carried by [panic(err)]. *)
Definition error := string.

(** What a goroutine panics with: one of the two run-time bounds faults
    ("index out of range", "slice bounds out of range"), or an [error]. *)
Inductive Panic : Type :=
| IndexOutOfRange
| SliceBoundsOutOfRange
| PanicError (err : error).

(** Addresses of byte buffers.  [Static] buffers are the ones embedded in
    generated code and handed out by a value's own accessor; [Heap] buffers
    are allocated by this package (the output of [CompressGZIP]). *)
Inductive addr : Type :=
| Static (p : positive)
| Heap (p : positive).

#[global] Instance addr_eq_dec : EqDecision addr.
Proof. solve_decision. Defined.

#[global] Instance addr_countable : Countable addr.
Proof.
  refine (inj_countable'
            (fun a => match a with Static p => inl p | Heap p => inr p end)
            (fun s => match s with inl p => Static p | inr p => Heap p end) _).
  by intros [].
Defined.

(** A [[]byte]: the nil slice, or a slice whose element 0 lives at [base].
    A non-nil slice may be empty. *)
Inductive ByteSlice : Type :=
| BNil
| BSlice (base : addr) (data : list byte).

Definition bytes_of (b : ByteSlice) : list byte :=
  match b with BNil => [] | BSlice _ data => data end.

(** A [[]int]: [None] is the nil slice. *)
Definition IntSlice := option (list Z).

(** [l[i]] with Go's bounds check; [None] stands for the run-time panic. *)
Definition at_index {A} (l : list A) (i : Z) : option A :=
  if decide (0 <= i) then l !! Z.to_nat i else None.

(** [len(l)] *)
Definition len {A} (l : list A) : Z := Z.of_nat (length l).

(** [l[lo:hi]] with Go's bounds check ([0 <= lo <= hi <= len(l)]). *)
Definition slice {A} (l : list A) (lo hi : Z) : option (list A) :=
  if decide (0 <= lo /\ lo <= hi /\ hi <= len l)
  then Some (take (Z.to_nat (hi - lo)) (drop (Z.to_nat lo) l))
  else None.

(** ** Generated descriptor messages ([descriptorpb])

    Only the fields this package reads are kept. *)
Module descriptorpb.

Record EnumDescriptorProto : Type := mkEnum {
  Enum_Name : option string
}.

Inductive DescriptorProto : Type := mkMessage {
  Name : option string;
  NestedType : list DescriptorProto;
  EnumType : list EnumDescriptorProto
}.

Record FileDescriptorProto : Type := mkFile {
  File_Name : option string;
  File_MessageType : list DescriptorProto;
  File_EnumType : list EnumDescriptorProto
}.

End descriptorpb.
Import descriptorpb.

(** ** Reflective descriptors ([protoreflect])

    The objects behind [protoreflect.FileDescriptor], [MessageDescriptor] and
    [EnumDescriptor] belong to the reflection library; this package compares
    them by identity and reads [Index] and [Parent]. *)
Class Reflection : Type := {
  FileD : Type;
  MessageD : Type;
  EnumD : Type;
  FileD_eq_dec :: EqDecision FileD;
  FileD_countable :: Countable FileD;
  MessageD_eq_dec :: EqDecision MessageD;
  MessageD_countable :: Countable MessageD;
  EnumD_eq_dec :: EqDecision EnumD;
  EnumD_countable :: Countable EnumD;
  (** [fd.Messages()], [fd.Enums()], [md.Messages()], [md.Enums()], [Name()] *)
  file_Messages : FileD -> list MessageD;
  file_Enums : FileD -> list EnumD;
  message_Messages : MessageD -> list MessageD;
  message_Enums : MessageD -> list EnumD;
  message_Name : MessageD -> string;
  enum_Name : EnumD -> string
}.

Section Descriptors.
Context `{Reflection}.

(** The dynamic type of a [protoreflect.Descriptor] value. *)
Inductive Node : Type :=
| NFile (f : FileD)
| NMessage (m : MessageD)
| NEnum (e : EnumD).

(** A [protoreflect.Descriptor]: the object, its [Index()] and its
    [Parent()] ([None] is the nil descriptor).  Descriptors form finite
    trees, so a descriptor comes with its chain of ancestors; two of them are
    the same [sync.Map] key when they are the same object with the same
    ancestors. *)
Inductive Descriptor : Type := Desc {
  node : Node;
  Index : Z;
  Parent : option Descriptor
}.

Lemma Descriptor_rect' (P : Descriptor -> Type) :
  (forall n i, P (Desc n i None)) ->
  (forall n i p, P p -> P (Desc n i (Some p))) ->
  forall d, P d.
Proof.
  intros Hnil Hsome. fix IH 1. intros [n i [p|]].
  - apply Hsome, IH.
  - apply Hnil.
Defined.

#[global] Instance Node_eq_dec : EqDecision Node.
Proof. solve_decision. Defined.

#[global] Instance Node_countable : Countable Node.
Proof.
  refine (inj_countable'
    (fun n => match n with
              | NFile f => inl f | NMessage m => inr (inl m)
              | NEnum e => inr (inr e) end)
    (fun s => match s with
              | inl f => NFile f | inr (inl m) => NMessage m
              | inr (inr e) => NEnum e end) _).
  by intros [].
Defined.

(** The chain of a descriptor and its ancestors, leaf first. *)
Fixpoint lineage (d : Descriptor) : list (Node * Z) :=
  (node d, Index d) ::
  match Parent d with None => [] | Some p => lineage p end.

Fixpoint of_lineage (l : list (Node * Z)) : option Descriptor :=
  match l with
  | [] => None
  | (n, i) :: l' => Some (Desc n i (of_lineage l'))
  end.

Lemma of_lineage_lineage d : of_lineage (lineage d) = Some d.
Proof.
  induction d as [n i | n i p IH] using Descriptor_rect'; simpl.
  - done.
  - by rewrite IH.
Qed.

#[global] Instance lineage_inj : Inj (=) (=) lineage.
Proof.
  intros d1 d2 Heq. apply (inj Some).
  by rewrite <- !of_lineage_lineage, Heq.
Qed.

#[global] Instance Descriptor_eq_dec : EqDecision Descriptor.
Proof.
  intros d1 d2. destruct (decide (lineage d1 = lineage d2)) as [Heq|Hne].
  - left. by apply (inj lineage).
  - right. by intros ->.
Defined.

#[global] Instance Descriptor_countable : Countable Descriptor.
Proof.
  apply (inj_countable lineage of_lineage), of_lineage_lineage.
Defined.

End Descriptors.

(** ** Values of generated types

    A [proto.GeneratedEnum] or [proto.GeneratedMessage] is any value; the only
    thing this package asks of it is whether it has the legacy accessor
    ([EnumDescriptor()], resp. [Descriptor()]) and, if so, what it returns.
    [go_type] stands for the concrete Go type, which the registry looks at. *)
Record GeneratedEnum : Type := {
  enum_go_type : positive;
  EnumDescriptor : option (ByteSlice * IntSlice)
}.

Record GeneratedMessage : Type := {
  message_go_type : positive;
  Descriptor_method : option (ByteSlice * IntSlice)
}.

(** The deprecated interface [Message]: a [proto.Message] that has the
    [Descriptor()] method. *)
Record Message : Type := {
  Message_go_type : positive;
  Message_Descriptor : ByteSlice * IntSlice
}.

(** Passing a [Message] where a [proto.GeneratedMessage] is expected. *)
Definition as_GeneratedMessage (m : Message) : GeneratedMessage :=
  {| message_go_type := Message_go_type m;
     Descriptor_method := Some (Message_Descriptor m) |}.

(** ** Collaborators *)

(** Calls that leave this package, in the order they are made. *)
Inductive Call : Type :=
| CallEnumTypeOf
| CallMessageTypeOf
| CallMarshal
| CallCompressGZIP
| CallNewReader
| CallReadAll
| CallUnmarshal.

#[global] Instance Call_eq_dec : EqDecision Call.
Proof. solve_decision. Defined.

Class Collaborators `{Reflection} : Type := {
  (** [protodesc.ToFileDescriptorProto] and its siblings for messages and
      enums *)
  ToFileDescriptorProto : FileD -> FileDescriptorProto;
  ToDescriptorProto : MessageD -> DescriptorProto;
  ToEnumDescriptorProto : EnumD -> EnumDescriptorProto;
  (** [proto.Marshal]: the bytes and the error *)
  Marshal : FileDescriptorProto -> list byte * option error;
  (** [proto.Unmarshal] into a fresh message *)
  Unmarshal : list byte -> error + FileDescriptorProto;
  (** [protoimpl.X.CompressGZIP] *)
  CompressGZIP : list byte -> list byte;
  (** [gzip.NewReader] over the input: an error, or a reader, given by the
      stream it still has to inflate *)
  NewReader : list byte -> error + list byte;
  (** [ioutil.ReadAll] of such a reader *)
  ReadAll : list byte -> error + list byte;
  (** [protoimpl.X.EnumTypeOf(e).Descriptor()] and
      [protoimpl.X.MessageTypeOf(m).Descriptor()]: the registry has a
      descriptor for every value *)
  EnumTypeOf : GeneratedEnum -> Descriptor;
  MessageTypeOf : GeneratedMessage -> Descriptor
}.

(** ** The package state and the monad of its functions *)

Section Package.
Context `{Collaborators}.

(** [type rawDesc struct] *)
Record rawDesc : Type := mkRawDesc {
  fileDesc : ByteSlice;
  indexes : IntSlice
}.

(** The package-level variables [rawDescCache] and [fileDescCache] (both a
    [sync.Map]), the buffers this package has allocated so far, and the
    calls made to collaborators (latest first). *)
Record State : Type := mkState {
  rawDescCache : gmap Descriptor rawDesc;
  fileDescCache : gmap addr FileDescriptorProto;
  heap : gmap positive (list byte);
  calls : list Call
}.

(** The state at program start. *)
Definition init : State :=
  {| rawDescCache := ∅; fileDescCache := ∅; heap := ∅; calls := [] |}.

(** A call either returns a value or panics; both leave a state behind
    (a panic can be recovered by the caller). *)
Inductive Outcome (A : Type) : Type :=
| Ret (a : A) (s : State)
| Throw (p : Panic) (s : State).
Arguments Ret {A} a s.
Arguments Throw {A} p s.

Definition M (A : Type) : Type := State -> Outcome A.

#[global] Instance M_ret : MRet M := fun A a s => Ret a s.

#[global] Instance M_bind : MBind M := fun A B k m s =>
  match m s with
  | Ret a s' => k a s'
  | Throw p s' => Throw p s'
  end.

Definition panic {A} (p : Panic) : M A := fun s => Throw p s.

(** The state a call leaves behind, however it ends. *)
Definition final {A} (o : Outcome A) : State :=
  match o with Ret _ s => s | Throw _ s => s end.

(** Record a call to a collaborator. *)
Definition call (c : Call) : M unit :=
  fun s => Ret tt {| rawDescCache := rawDescCache s;
                     fileDescCache := fileDescCache s;
                     heap := heap s;
                     calls := c :: calls s |}.

(** A bounds-checked read [l[i]]: a miss is the run-time panic. *)
Definition checked {A} (o : option A) : M A :=
  match o with Some a => mret a | None => panic IndexOutOfRange end.

(** A bounds-checked slice expression [l[lo:hi]]. *)
Definition checked_slice {A} (o : option A) : M A :=
  match o with Some a => mret a | None => panic SliceBoundsOutOfRange end.

(** Put freshly produced bytes into a new buffer. *)
Definition alloc (data : list byte) : M ByteSlice :=
  fun s => let p := fresh (dom (heap s)) in
           Ret (BSlice (Heap p) data)
               {| rawDescCache := rawDescCache s;
                  fileDescCache := fileDescCache s;
                  heap := <[p := data]> (heap s);
                  calls := calls s |}.

(** [sync.Map.LoadOrStore]: the value now under the key, and whether it was
    there already. *)
Definition LoadOrStore `{Countable K} {V} (k : K) (v : V) (m : gmap K V)
  : V * bool * gmap K V :=
  match m !! k with
  | Some v' => (v', true, m)
  | None => (v, false, <[k := v]> m)
  end.

(** [rawDescCache.Load(k)] *)
Definition rawDescCache_Load (k : Descriptor) : M (option rawDesc) :=
  fun s => Ret (rawDescCache s !! k) s.

(** [rawDescCache.LoadOrStore(k, v)] *)
Definition rawDescCache_LoadOrStore (k : Descriptor) (v : rawDesc)
  : M (rawDesc * bool) :=
  fun s => let '(v', loaded, m) := LoadOrStore k v (rawDescCache s) in
           Ret (v', loaded)
               {| rawDescCache := m;
                  fileDescCache := fileDescCache s;
                  heap := heap s;
                  calls := calls s |}.

(** [fileDescCache.Load(k)] *)
Definition fileDescCache_Load (k : addr) : M (option FileDescriptorProto) :=
  fun s => Ret (fileDescCache s !! k) s.

(** [fileDescCache.LoadOrStore(k, v)] *)
Definition fileDescCache_LoadOrStore (k : addr) (v : FileDescriptorProto)
  : M (FileDescriptorProto * bool) :=
  fun s => let '(v', loaded, m) := LoadOrStore k v (fileDescCache s) in
           Ret (v', loaded)
               {| rawDescCache := rawDescCache s;
                  fileDescCache := m;
                  heap := heap s;
                  calls := calls s |}.

(** ** [deriveRawDescriptor] *)

(** The ascent [for { idxs = append(idxs, d.Index()); d = d.Parent(); ... }]:
    [None] when a nil parent is met (the [return nil, nil]), otherwise the
    file descriptor the loop breaks at and the indexes gathered. *)
Fixpoint ascend (d : Descriptor) (idxs : list Z) : option (FileD * list Z) :=
  let idxs := idxs ++ [Index d] in
  match Parent d with
  | None => None
  | Some d' =>
      match node d' with
      | NFile fd => Some (fd, idxs)
      | _ => ascend d' idxs
      end
  end.

(** [idxs[i], idxs[j] = idxs[j], idxs[i]] *)
Definition swap (idxs : list Z) (i j : Z) : option (list Z) :=
  match at_index idxs j, at_index idxs i with
  | Some xj, Some xi =>
      Some (<[Z.to_nat j := xi]> (<[Z.to_nat i := xj]> idxs))
  | _, _ => None
  end.

(** [for i, j := 0, len(idxs)-1; i < j; i, j = i+1, j-1 { swap }] from the
    loop head at [i], [j]. *)
Equations? reverse_from (idxs : list Z) (i j : Z) : option (list Z)
  by wf (Z.to_nat (j - i)) lt :=
  reverse_from idxs i j with decide (i < j) => {
    | left _ with swap idxs i j => {
        | Some idxs' := reverse_from idxs' (i + 1) (j - 1);
        | None := None };
    | right _ := Some idxs }.
Proof. lia. Qed.

Definition reverse_in_place (idxs : list Z) : option (list Z) :=
  reverse_from idxs 0 (len idxs - 1).

Definition deriveRawDescriptor (d : Descriptor) : M (ByteSlice * IntSlice) :=
  (* Fast-path: check whether raw descriptors are already cached. *)
  let origDesc := d in
  v ← rawDescCache_Load origDesc;
  match v with
  | Some v => mret (fileDesc v, indexes v)
  | None =>
    (* Slow-path: derive the raw descriptor from the v2 descriptor. *)
    match ascend d [] with
    | None => mret (BNil, None)
    | Some (fd, idxs) =>
      (* Obtain the raw file descriptor. *)
      _ ← call CallMarshal;
      let b := fst (Marshal (ToFileDescriptorProto fd)) in
      _ ← call CallCompressGZIP;
      file ← alloc (CompressGZIP b);
      (* Reverse the indexes, since we populated it in reverse. *)
      idxs ← checked (reverse_in_place idxs);
      '(v, loaded) ← rawDescCache_LoadOrStore origDesc
                        (mkRawDesc file (Some idxs));
      if (loaded : bool) then mret (fileDesc v, indexes v)
      else mret (file, Some idxs)
    end
  end.

(** [deriveRawDescriptor] as a goroutine runs it next to others: the two
    operations on [rawDescCache] are atomic, and what lies between them
    works on the goroutine's own variables and on a buffer it allocates.  A
    call is about to [Load], or has missed and derives, or has derived
    [file] and [idxs] and is about to [LoadOrStore], or has returned. *)
Inductive Goroutine : Type :=
| Called (d : Descriptor)
| Deriving (d : Descriptor)
| Publishing (d : Descriptor) (file : ByteSlice) (idxs : list Z)
| Returned (d : Descriptor) (out : ByteSlice * IntSlice).

(** One atomic step of such a call. *)
Definition advance (g : Goroutine) : M Goroutine :=
  match g with
  | Called d =>
      v ← rawDescCache_Load d;
      match v with
      | Some v => mret (Returned d (fileDesc v, indexes v))
      | None => mret (Deriving d)
      end
  | Deriving d =>
      match ascend d [] with
      | None => mret (Returned d (BNil, None))
      | Some (fd, idxs) =>
        _ ← call CallMarshal;
        let b := fst (Marshal (ToFileDescriptorProto fd)) in
        _ ← call CallCompressGZIP;
        file ← alloc (CompressGZIP b);
        idxs ← checked (reverse_in_place idxs);
        mret (Publishing d file idxs)
      end
  | Publishing d file idxs =>
      '(v, loaded) ← rawDescCache_LoadOrStore d (mkRawDesc file (Some idxs));
      if (loaded : bool) then mret (Returned d (fileDesc v, indexes v))
      else mret (Returned d (file, Some idxs))
  | Returned d out => mret (Returned d out)
  end.

(** [EnumRawDescriptor] *)
Definition EnumRawDescriptor (e : GeneratedEnum) : M (ByteSlice * IntSlice) :=
  match EnumDescriptor e with
  | Some out => mret out
  | None =>
    _ ← call CallEnumTypeOf;
    let ed := EnumTypeOf e in
    deriveRawDescriptor ed
  end.

(** [MessageRawDescriptor] *)
Definition MessageRawDescriptor (m : GeneratedMessage)
  : M (ByteSlice * IntSlice) :=
  match Descriptor_method m with
  | Some out => mret out
  | None =>
    _ ← call CallMessageTypeOf;
    let md := MessageTypeOf m in
    deriveRawDescriptor md
  end.

(** ** [deriveFileDescriptor] *)

(** [&rawDesc[0]] *)
Definition first_byte (rawDesc : ByteSlice) : M addr :=
  match rawDesc with
  | BSlice base (_ :: _) => mret base
  | _ => panic IndexOutOfRange
  end.

Definition deriveFileDescriptor (rawDesc : ByteSlice)
  : M FileDescriptorProto :=
  (* Fast-path: check whether descriptor protos are already cached. *)
  k ← first_byte rawDesc;
  v ← fileDescCache_Load k;
  match v with
  | Some v => mret v
  | None =>
    (* Slow-path: derive the descriptor proto from the GZIP'd message. *)
    _ ← call CallNewReader;
    match NewReader (bytes_of rawDesc) with
    | inl err => panic (PanicError err)
    | inr zr =>
      _ ← call CallReadAll;
      match ReadAll zr with
      | inl err => panic (PanicError err)
      | inr b =>
        _ ← call CallUnmarshal;
        match Unmarshal b with
        | inl err => panic (PanicError err)
        | inr fd =>
          k ← first_byte rawDesc;
          '(v, loaded) ← fileDescCache_LoadOrStore k fd;
          if (loaded : bool) then mret v else mret fd
        end
      end
    end
  end.

(** [for _, i := range rest { md = md.NestedType[i] }] *)
Fixpoint descend (md : DescriptorProto) (rest : list Z) : M DescriptorProto :=
  match rest with
  | [] => mret md
  | i :: rest' =>
      md ← checked (at_index (NestedType md) i);
      descend md rest'
  end.

(** The navigation of [EnumDescriptorProto], from [if len(idxs) == 1] to the
    enum returned. *)
Definition enum_at (fd : FileDescriptorProto) (idxs : list Z)
  : M descriptorpb.EnumDescriptorProto :=
  if decide (len idxs = 1) then
    i ← checked (at_index idxs 0);
    checked (at_index (File_EnumType fd) i)
  else
    i ← checked (at_index idxs 0);
    md ← checked (at_index (File_MessageType fd) i);
    rest ← checked_slice (slice idxs 1 (len idxs - 1));
    md ← descend md rest;
    i ← checked (at_index idxs (len idxs - 1));
    checked (at_index (EnumType md) i).

(** [EnumDescriptorProto]: a nil pointer is [None]. *)
Definition EnumDescriptorProto (e : GeneratedEnum)
  : M (option FileDescriptorProto * option descriptorpb.EnumDescriptorProto) :=
  '(rawDesc, idxs) ← EnumRawDescriptor e;
  match rawDesc, idxs with
  | BNil, _ | _, None => mret (None, None)
  | BSlice _ _, Some idxs =>
    fd ← deriveFileDescriptor rawDesc;
    ed ← enum_at fd idxs;
    mret (Some fd, Some ed)
  end.

(** The navigation of [MessageDescriptorProto], from [fd.MessageType[idxs[0]]]
    to the message returned. *)
Definition message_at (fd : FileDescriptorProto) (idxs : list Z)
  : M DescriptorProto :=
  i ← checked (at_index idxs 0);
  md ← checked (at_index (File_MessageType fd) i);
  rest ← checked_slice (slice idxs 1 (len idxs));
  descend md rest.

(** [MessageDescriptorProto] *)
Definition MessageDescriptorProto (m : GeneratedMessage)
  : M (option FileDescriptorProto * option DescriptorProto) :=
  '(rawDesc, idxs) ← MessageRawDescriptor m;
  match rawDesc, idxs with
  | BNil, _ | _, None => mret (None, None)
  | BSlice _ _, Some idxs =>
    fd ← deriveFileDescriptor rawDesc;
    md ← message_at fd idxs;
    mret (Some fd, Some md)
  end.

(** [ForMessage] *)
Definition ForMessage (m : Message)
  : M (option FileDescriptorProto * option DescriptorProto) :=
  MessageDescriptorProto (as_GeneratedMessage m).

End Package.

Arguments Ret {_ A} a s.
Arguments Throw {_ A} p s.

(** * Vocabulary of the specification *)

(** ** Locating a declaration by an index path

    "For a path of length 1, the single index selects directly among the
    root's top-level declarations of the target kind.  For longer paths, the
    first index selects a top-level message, each intermediate index descends
    into that message's nested-message list, and the final index selects
    either a nested message or a nested enum within the last message
    reached."  The definition is generic in the tree: it is used on decoded
    root trees and on reflective ones. *)
Section Navigate.
Context {F G D : Type}.
Context (top_messages : F -> list G) (nested_messages : G -> list G).
Context (top : F -> list D) (nested : G -> list D).

(** Inside message [g]: [i] is the next index, [rest] the ones after it. *)
Fixpoint navigate_in (g : G) (i : Z) (rest : list Z) : option D :=
  match rest with
  | [] => at_index (nested g) i
  | j :: rest' =>
      g' ← at_index (nested_messages g) i;
      navigate_in g' j rest'
  end.

Definition navigate (f : F) (path : list Z) : option D :=
  match path with
  | [] => None
  | [i] => at_index (top f) i
  | i :: j :: rest =>
      g ← at_index (top_messages f) i;
      navigate_in g j rest
  end.

(** The message reached from [g] by descending along [path]. *)
Fixpoint walk (g : G) (path : list Z) : option G :=
  match path with
  | [] => Some g
  | i :: path' => g' ← at_index (nested_messages g) i; walk g' path'
  end.

(** The message reached from the root: a top-level one, then down. *)
Definition enter (f : F) (path : list Z) : option G :=
  match path with
  | [] => None
  | i :: path' => g ← at_index (top_messages f) i; walk g path'
  end.

End Navigate.

(** [locate], for the two target kinds, on a decoded root tree. *)
Definition locate_message (fd : FileDescriptorProto) (path : list Z)
  : option DescriptorProto :=
  navigate File_MessageType NestedType File_MessageType NestedType fd path.

Definition locate_enum (fd : FileDescriptorProto) (path : list Z)
  : option descriptorpb.EnumDescriptorProto :=
  navigate File_MessageType NestedType File_EnumType EnumType fd path.

Section Vocabulary.
Context `{Collaborators}.

(** The leaf-to-root sequence of [Index()] values: the descriptor's own index
    first, then its ancestors', up to the one declared directly in a file. *)
Fixpoint leaf_to_root (d : Descriptor) : list Z :=
  Index d ::
  match Parent d with
  | None => []
  | Some p => match node p with NFile _ => [] | _ => leaf_to_root p end
  end.

(** The file the parent chain reaches, if it reaches one before a nil
    parent. *)
Fixpoint root_file (d : Descriptor) : option FileD :=
  match Parent d with
  | None => None
  | Some p => match node p with NFile fd => Some fd | _ => root_file p end
  end.

(** Serialize the root and compress it. *)
Definition raw_bytes (fd : FileD) : list byte :=
  CompressGZIP (fst (Marshal (ToFileDescriptorProto fd))).

(** The Decompression Service: decompress, then parse. *)
Definition decode (b : list byte) : error + FileDescriptorProto :=
  match NewReader b with
  | inl err => inl err
  | inr zr =>
      match ReadAll zr with
      | inl err => inl err
      | inr b' => Unmarshal b'
      end
  end.

(** The same navigation on the reflective tree. *)
Definition declared_message (fd : FileD) (path : list Z) : option MessageD :=
  navigate file_Messages message_Messages file_Messages message_Messages
           fd path.

Definition declared_enum (fd : FileD) (path : list Z) : option EnumD :=
  navigate file_Messages message_Messages file_Enums message_Enums fd path.

(** [d] is listed, under its own index, among the declarations of its kind
    in [p]: [p.Messages().Get(d.Index()) == d], resp. [Enums()]. *)
Definition listed (d p : Descriptor) : Prop :=
  match node d, node p with
  | NMessage m, NFile fd => at_index (file_Messages fd) (Index d) = Some m
  | NEnum e, NFile fd => at_index (file_Enums fd) (Index d) = Some e
  | NMessage m, NMessage pm =>
      at_index (message_Messages pm) (Index d) = Some m
  | NEnum e, NMessage pm => at_index (message_Enums pm) (Index d) = Some e
  | _, _ => False
  end.

(** A declaration reachable from a root file tree: it is listed in its
    parent, and so is every ancestor, up to a file. *)
Fixpoint attached (d : Descriptor) : Prop :=
  match Parent d with
  | None => False
  | Some p =>
      listed d p /\ match node p with NFile _ => True | _ => attached p end
  end.

(** What this package relies on in its collaborators: decompression undoes
    compression, the compressed form is never empty, parsing undoes the
    serialization of a file descriptor, and [protodesc] copies names and
    keeps the order of declarations. *)
Class Faithful : Prop := {
  gunzip_gzip : forall b,
    exists zr, NewReader (CompressGZIP b) = inr zr /\ ReadAll zr = inr b;
  gzip_nonempty : forall b, CompressGZIP b <> [];
  unmarshal_marshal : forall fd,
    Unmarshal (fst (Marshal (ToFileDescriptorProto fd)))
    = inr (ToFileDescriptorProto fd);
  to_file_messages : forall fd,
    File_MessageType (ToFileDescriptorProto fd)
    = ToDescriptorProto <$> file_Messages fd;
  to_file_enums : forall fd,
    File_EnumType (ToFileDescriptorProto fd)
    = ToEnumDescriptorProto <$> file_Enums fd;
  to_nested_messages : forall m,
    NestedType (ToDescriptorProto m)
    = ToDescriptorProto <$> message_Messages m;
  to_nested_enums : forall m,
    EnumType (ToDescriptorProto m)
    = ToEnumDescriptorProto <$> message_Enums m;
  to_message_name : forall m,
    Name (ToDescriptorProto m) = Some (message_Name m);
  to_enum_name : forall e,
    Enum_Name (ToEnumDescriptorProto e) = Some (enum_Name e)
}.

(** ** States the program can be in *)

(** A buffer that lives on this package's heap holds what was put there. *)
Definition resident (s : State) (b : ByteSlice) : Prop :=
  match b with
  | BSlice (Heap p) data => heap s !! p = Some data
  | _ => True
  end.

(** The operations a caller can run. *)
Inductive Op : Type :=
| OpEnumRawDescriptor (e : GeneratedEnum)
| OpMessageRawDescriptor (m : GeneratedMessage)
| OpEnumDescriptorProto (e : GeneratedEnum)
| OpMessageDescriptorProto (m : GeneratedMessage)
| OpForMessage (m : Message).

(** The buffer a value's own accessor hands out, if it has one. *)
Definition own_buffer (op : Op) : option ByteSlice :=
  match op with
  | OpEnumRawDescriptor e | OpEnumDescriptorProto e =>
      fst <$> EnumDescriptor e
  | OpMessageRawDescriptor m | OpMessageDescriptorProto m =>
      fst <$> Descriptor_method m
  | OpForMessage m => Some (fst (Message_Descriptor m))
  end.

(** Callers do not mutate returned slices: a value that hands out a buffer
    of this package's heap hands it out as it is. *)
Definition admissible (s : State) (op : Op) : Prop :=
  match own_buffer op with
  | Some b => resident s b
  | None => True
  end.

(** The state an operation leaves behind. *)
Definition exec (op : Op) (s : State) : State :=
  match op with
  | OpEnumRawDescriptor e => final (EnumRawDescriptor e s)
  | OpMessageRawDescriptor m => final (MessageRawDescriptor m s)
  | OpEnumDescriptorProto e => final (EnumDescriptorProto e s)
  | OpMessageDescriptorProto m => final (MessageDescriptorProto m s)
  | OpForMessage m => final (ForMessage m s)
  end.

(** [Steps s s']: [s'] is [s] after some operations. *)
Inductive Steps : State -> State -> Prop :=
| Steps_refl s : Steps s s
| Steps_op s s' op :
    Steps s s' -> admissible s' op -> Steps s (exec op s').

Definition Reachable (s : State) : Prop := Steps init s.

(** The buffer's first byte is not a key of the file-tree cache (a nil or
    empty buffer has no first byte). *)
Definition uncached (s : State) (rawDesc : ByteSlice) : Prop :=
  match rawDesc with
  | BSlice base (_ :: _) => fileDescCache s !! base = None
  | _ => True
  end.

(** How many times the Decompression Service was started. *)
Definition decodings (s : State) : nat :=
  length (filter (fun c => c = CallNewReader) (calls s)).

(** Calls of [deriveRawDescriptor] running concurrently: at each step one
    of them advances. *)
Inductive Interleaving (c : State * list Goroutine)
  : State * list Goroutine -> Prop :=
| Interleaving_refl : Interleaving c c
| Interleaving_step s pool i g g' s' :
    Interleaving c (s, pool) ->
    pool !! i = Some g ->
    advance g s = Ret g' s' ->
    Interleaving c (s', <[i := g']> pool).

(** What a call holds is what the derivation gives: the buffer it is about
    to publish is on the heap with the compressed root in it, and what it has
    returned is the raw descriptor of its descriptor. *)
Definition goroutine_ok (s : State) (g : Goroutine) : Prop :=
  match g with
  | Called _ | Deriving _ => True
  | Publishing d file idxs =>
      exists fd p,
        root_file d = Some fd /\
        file = BSlice (Heap p) (raw_bytes fd) /\
        idxs = rev (leaf_to_root d) /\
        heap s !! p = Some (raw_bytes fd)
  | Returned d out =>
      match root_file d with
      | Some fd =>
          exists p, out = (BSlice (Heap p) (raw_bytes fd),
                           Some (rev (leaf_to_root d)))
      | None => out = (BNil, None)
      end
  end.

(** No call in the pool has started. *)
Definition all_called (pool : list Goroutine) : Prop :=
  Forall (fun g => exists d, g = Called d) pool.

(** The caches hold what was derived, and the heap what was allocated. *)
Record coherent (s : State) : Prop := {
  raw_coherent : forall d v,
    rawDescCache s !! d = Some v ->
    exists fd p,
      root_file d = Some fd /\
      v = mkRawDesc (BSlice (Heap p) (raw_bytes fd))
                    (Some (rev (leaf_to_root d))) /\
      heap s !! p = Some (raw_bytes fd);
  file_coherent : forall p fd,
    fileDescCache s !! Heap p = Some fd ->
    exists data, heap s !! p = Some data /\ decode data = inr fd
}.

(** The state with further calls recorded. *)
Definition logged (cs : list Call) (s : State) : State :=
  {| rawDescCache := rawDescCache s;
     fileDescCache := fileDescCache s;
     heap := heap s;
     calls := cs ++ calls s |}.

(** Nothing is ever taken out of a cache or of the heap. *)
Record extends (s s' : State) : Prop := {
  extends_raw : rawDescCache s ⊆ rawDescCache s';
  extends_file : fileDescCache s ⊆ fileDescCache s';
  extends_heap : heap s ⊆ heap s'
}.

(** A computation that leaves the state as it found it. *)
Definition stateless {A} (m : M A) : Prop := forall s, final (m s) = s.

(** What follows the raw descriptor in the two [...DescriptorProto]
    functions, for a navigation [at_]. *)
Definition and_then {D} (at_ : FileDescriptorProto -> list Z -> M D)
    (r : ByteSlice * IntSlice) : M (option FileDescriptorProto * option D) :=
  let '(rawDesc, idxs) := r in
  match rawDesc, idxs with
  | BNil, _ | _, None => mret (None, None)
  | BSlice _ _, Some idxs =>
    fd ← deriveFileDescriptor rawDesc;
    d ← at_ fd idxs;
    mret (Some fd, Some d)
  end.

End Vocabulary.

(** * A small world to run the definitions in

    Message [n] is declared with one nested message, [n - 1], unless [n] is
    0, and one enum; file [n] declares message [n] and one enum.  Message 1
    is called Foo and message 0 Bar, so that file 1 reads
    [message Foo { message Bar {...} enum Kind {...} } enum Kind {...}].
    Serialization writes one byte per level of nesting, and compression puts
    the two magic bytes of GZIP in front. *)
Module Toy.

Definition message_name (m : nat) : string :=
  match m with
  | 0%nat => "Bar"
  | 1%nat => "Foo"
  | _ => "Msg"
  end.

Definition reflection : Reflection := {|
  FileD := nat; MessageD := nat; EnumD := nat;
  file_Messages fd := [fd];
  file_Enums fd := [fd];
  message_Messages m := match m with O => [] | S k => [k] end;
  message_Enums m := [m];
  message_Name := message_name;
  enum_Name e := "Kind"
|}.
#[local] Existing Instance reflection.

Fixpoint toDescriptorProto (m : nat) : DescriptorProto :=
  mkMessage (Some (message_name m))
            match m with O => [] | S k => [toDescriptorProto k] end
            [mkEnum (Some "Kind")].

Definition toFileDescriptorProto (fd : nat) : FileDescriptorProto :=
  mkFile (Some "toy.proto") [toDescriptorProto fd] [mkEnum (Some "Kind")].

Fixpoint depth (md : DescriptorProto) : nat :=
  match md with
  | mkMessage _ (md' :: _) _ => S (depth md')
  | _ => 0%nat
  end.

Definition marshal (p : FileDescriptorProto) : list byte * option error :=
  match File_MessageType p with
  | md :: _ => (replicate (depth md) Byte.x01, None)
  | [] => ([], Some "proto: nothing to write")
  end.

Definition unmarshal (b : list byte) : error + FileDescriptorProto :=
  if forallb (Byte.eqb Byte.x01) b
  then inr (toFileDescriptorProto (length b))
  else inl "proto: cannot parse".

Definition compressGZIP (b : list byte) : list byte :=
  Byte.x1f :: Byte.x8b :: b.

Definition newReader (b : list byte) : error + list byte :=
  match b with
  | Byte.x1f :: Byte.x8b :: zr => inr zr
  | _ => inl "gzip: invalid header"
  end.

(** The descriptors of file 1. *)
Definition file1 : Descriptor := Desc (NFile 1%nat) 0 None.
Definition foo : Descriptor := Desc (NMessage 1%nat) 0 (Some file1).
Definition bar : Descriptor := Desc (NMessage 0%nat) 0 (Some foo).
Definition kind : Descriptor := Desc (NEnum 1%nat) 0 (Some foo).

(** A message descriptor that belongs to no file. *)
Definition standalone : Descriptor := Desc (NMessage 7%nat) 0 None.

Definition collaborators : Collaborators := {|
  ToFileDescriptorProto := toFileDescriptorProto;
  ToDescriptorProto := toDescriptorProto;
  ToEnumDescriptorProto e := mkEnum (Some "Kind");
  Marshal := marshal;
  Unmarshal := unmarshal;
  CompressGZIP := compressGZIP;
  NewReader := newReader;
  ReadAll zr := inr zr;
  EnumTypeOf e :=
    match enum_go_type e with
    | 1%positive => kind
    | _ => Desc (NEnum 7%nat) 0 None
    end;
  MessageTypeOf m :=
    match message_go_type m with
    | 1%positive => foo
    | 2%positive => bar
    | _ => standalone
    end
|}.
#[local] Existing Instance collaborators.

(** Values of generated types without the legacy accessor. *)
Definition a_foo : GeneratedMessage :=
  {| message_go_type := 1; Descriptor_method := None |}.
Definition a_bar : GeneratedMessage :=
  {| message_go_type := 2; Descriptor_method := None |}.
Definition a_kind : GeneratedEnum :=
  {| enum_go_type := 1; EnumDescriptor := None |}.
Definition a_standalone : GeneratedMessage :=
  {| message_go_type := 3; Descriptor_method := None |}.
Definition a_standalone_enum : GeneratedEnum :=
  {| enum_go_type := 3; EnumDescriptor := None |}.

(** The raw descriptor of file 1 as generated code embeds it, and a message
    whose accessor hands it out with the path to Foo. *)
Definition embedded : ByteSlice :=
  BSlice (Static 1) [Byte.x1f; Byte.x8b; Byte.x01].
Definition a_legacy_foo : GeneratedMessage :=
  {| message_go_type := 4; Descriptor_method := Some (embedded, Some [0]) |}.

Definition a_legacy_bar : GeneratedMessage :=
  {| message_go_type := 5;
     Descriptor_method := Some (embedded, Some [0; 0]) |}.

(** The state at program start once the embedded buffer has been decoded. *)
Definition decoded_embedded : State :=
  {| rawDescCache := ∅;
     fileDescCache := <[Static 1 := toFileDescriptorProto 1]> ∅;
     heap := ∅;
     calls := [CallUnmarshal; CallReadAll; CallNewReader] |}.

(** The state after [MessageDescriptorProto(a_bar)], resp.
    [MessageDescriptorProto(a_legacy_foo)], at program start. *)
Definition after_bar : State := exec (OpMessageDescriptorProto a_bar) init.
Definition after_legacy_foo : State :=
  exec (OpMessageDescriptorProto a_legacy_foo) init.

End Toy.

(** * The command that regenerates the forwarding packages ([package main])

    [main] builds a request for the code generator out of the table [files],
    runs the generator, and writes each generated file next to its
    destination as [.bak]; with [-execute] the [.bak] file is renamed onto
    the destination, without it the two are diffed and the [.bak] file is
    removed.  The reflection library, [protogen], [gengo], [path],
    [path/filepath] and the operating system are collaborators. *)
Module Regenerate.
Import Stdlib.Strings.Ascii.

(** ** Go strings *)

(** [strings.IndexByte(s, c)]: the index of the first [c] in [s], or -1. *)
Fixpoint IndexByte (s : string) (c : Ascii.ascii) : Z :=
  match s with
  | EmptyString => -1
  | String a s' =>
      if Ascii.eqb a c then 0
      else let i := IndexByte s' c in
           if decide (i < 0) then -1 else i + 1
  end.

(** [s[:hi]] with Go's bounds check ([0 <= hi <= len(s)]). *)
Definition prefix (s : string) (hi : Z) : option string :=
  if decide (0 <= hi <= Z.of_nat (String.length s))
  then Some (String.substring 0 (Z.to_nat hi) s)
  else None.

(** [strings.Join(elems, sep)] *)
Definition Join (elems : list string) (sep : string) : string :=
  String.concat sep elems.

(** ** What the reflection library provides *)
Class Schema : Type := {
  (** [protoreflect.FileDescriptor], with [Path()] and
      [Syntax().String()] *)
  File : Type;
  File_Path : File -> string;
  File_Syntax : File -> string;
  (** a [descriptorpb.FileDescriptorProto] made by
      [protodesc.ToFileDescriptorProto] *)
  FileProto : Type;
  ToFileDescriptorProto : File -> FileProto;
  (** the file descriptors of the well-known packages *)
  File_google_protobuf_descriptor_proto : File;
  File_google_protobuf_compiler_plugin_proto : File;
  File_google_protobuf_any_proto : File;
  File_google_protobuf_duration_proto : File;
  File_google_protobuf_timestamp_proto : File;
  File_google_protobuf_wrappers_proto : File;
  File_google_protobuf_struct_proto : File;
  File_google_protobuf_empty_proto : File;
  (** [path.Base] *)
  path_Base : string -> string
}.

Section Request.
Context `{Schema}.

(** An entry of the table [files]. *)
Record Package : Type := {
  oldGoPkg : string;
  newGoPkg : string;
  pbDesc : File
}.

(** Set of generated proto packages to forward to v2. *)
Definition files : list Package := [
  {| oldGoPkg :=
       "github.com/golang/protobuf/protoc-gen-go/descriptor;descriptor";
     newGoPkg := "github.com/whiteCcinn/protobuf-go/types/descriptorpb";
     pbDesc := File_google_protobuf_descriptor_proto |};
  {| oldGoPkg := "github.com/golang/protobuf/protoc-gen-go/plugin;plugin_go";
     newGoPkg := "github.com/whiteCcinn/protobuf-go/types/pluginpb";
     pbDesc := File_google_protobuf_compiler_plugin_proto |};
  {| oldGoPkg := "github.com/golang/protobuf/ptypes/any;any";
     newGoPkg := "github.com/whiteCcinn/protobuf-go/types/known/anypb";
     pbDesc := File_google_protobuf_any_proto |};
  {| oldGoPkg := "github.com/golang/protobuf/ptypes/duration;duration";
     newGoPkg := "github.com/whiteCcinn/protobuf-go/types/known/durationpb";
     pbDesc := File_google_protobuf_duration_proto |};
  {| oldGoPkg := "github.com/golang/protobuf/ptypes/timestamp;timestamp";
     newGoPkg := "github.com/whiteCcinn/protobuf-go/types/known/timestamppb";
     pbDesc := File_google_protobuf_timestamp_proto |};
  {| oldGoPkg := "github.com/golang/protobuf/ptypes/wrappers;wrappers";
     newGoPkg := "github.com/whiteCcinn/protobuf-go/types/known/wrapperspb";
     pbDesc := File_google_protobuf_wrappers_proto |};
  {| oldGoPkg := "github.com/golang/protobuf/ptypes/struct;structpb";
     newGoPkg := "github.com/whiteCcinn/protobuf-go/types/known/structpb";
     pbDesc := File_google_protobuf_struct_proto |};
  {| oldGoPkg := "github.com/golang/protobuf/ptypes/empty;empty";
     newGoPkg := "github.com/whiteCcinn/protobuf-go/types/known/emptypb";
     pbDesc := File_google_protobuf_empty_proto |}
].

(** The [descriptorpb.FileDescriptorProto] that [main] writes as a literal:
    the fields it sets ([GoPackage] is [Options.GoPackage]). *)
Record Forwarding : Type := {
  Name : option string;
  Syntax : option string;
  Dependency : list string;
  PublicDependency : list Z;
  GoPackage : option string
}.

(** [fd.GetName()] *)
Definition GetName (fd : Forwarding) : string := default "" (Name fd).

(** [pluginpb.CodeGeneratorRequest] ([Param] is its field [Parameter]); a
    file in [ProtoFile] was made by [protodesc] or is a literal of [main]. *)
Record CodeGeneratorRequest : Type := {
  FileToGenerate : list string;
  Param : option string;
  ProtoFile : list (FileProto + Forwarding)
}.

(** The body of [for _, file := range files], on [req] and [flags]; [None]
    is the run-time panic of the slice expression. *)
Definition add_package (acc : CodeGeneratorRequest * list string)
    (file : Package) : option (CodeGeneratorRequest * list string) :=
  let '(req, flags) := acc in
  pkgPath ← prefix (oldGoPkg file) (IndexByte (oldGoPkg file) ";"%char);
  let fd := {|
    Name := Some (pkgPath +:+ "/" +:+ path_Base pkgPath +:+ ".proto");
    Syntax := Some (File_Syntax (pbDesc file));
    Dependency := [File_Path (pbDesc file)];
    PublicDependency := [0];
    GoPackage := Some (oldGoPkg file)
  |} in
  let req := {|
    ProtoFile := ProtoFile req
                 ++ [inl (ToFileDescriptorProto (pbDesc file)); inr fd];
    FileToGenerate := FileToGenerate req ++ [GetName fd];
    Param := Param req
  |} in
  let flags :=
    flags ++ ["M" +:+ File_Path (pbDesc file) +:+ "=" +:+ newGoPkg file] in
  Some (req, flags).

Fixpoint add_packages (acc : CodeGeneratorRequest * list string)
    (fs : list Package) : option (CodeGeneratorRequest * list string) :=
  match fs with
  | [] => Some acc
  | file :: fs' => acc' ← add_package acc file; add_packages acc' fs'
  end.

(** For each package, construct a proto file that public imports the
    package; then set the parameter. *)
Definition build_request (fs : list Package) : option CodeGeneratorRequest :=
  '(req, flags) ← add_packages
     ({| FileToGenerate := []; Param := None; ProtoFile := [] |}, []) fs;
  Some {| ProtoFile := ProtoFile req;
          FileToGenerate := FileToGenerate req;
          Param := Some (Join flags ",") |}.

End Request.

(** ** The generator and the operating system *)

(** A file of [pluginpb.CodeGeneratorResponse]. *)
Record ResponseFile : Type := {
  File_Name : option string;
  File_Content : option string
}.

Record CodeGeneratorResponse : Type := {
  Error : option string;
  Files : list ResponseFile
}.

(** What [main] asks of the operating system, in the order it asks. *)
Inductive Event : Type :=
| WriteFile (filename data : string) (perm : Z)
| Println (a : list string)
| Rename (oldpath newpath : string)
| Command_Run (name : string) (arg : list string)
| Remove (name : string).

Class Toolchain `{Schema} : Type := {
  (** [protogen.Options{}.New], [gen.Files], [file.Generate],
      [gengo.GenerateFile] (with the value of
      [gengo.GenerateVersionMarkers]) and [gen.Response] *)
  Plugin : Type;
  GenFile : Type;
  protogen_New : CodeGeneratorRequest -> error + Plugin;
  Plugin_Files : Plugin -> list GenFile;
  GenFile_Generate : GenFile -> bool;
  gengo_GenerateFile : bool -> Plugin -> GenFile -> Plugin;
  Plugin_Response : Plugin -> CodeGeneratorResponse;
  (** [filepath.FromSlash], [filepath.Rel] *)
  filepath_FromSlash : string -> string;
  filepath_Rel : string -> string -> error + string;
  (** the error of the latest call ([ioutil.WriteFile], [os.Rename]),
      given all calls so far, latest first *)
  os_error : list Event -> option error
}.

(** What [main] panics with: the run-time fault of a slice expression, an
    error ([check]), or a string. *)
Inductive Fatal : Type :=
| FatalSliceBounds
| FatalError (err : error)
| FatalString (msg : string).

(** A run ends normally or in a panic, with the calls made so far (latest
    first). *)
Inductive Outcome (A : Type) : Type :=
| Done (a : A) (tr : list Event)
| Aborted (p : Fatal) (tr : list Event).
Arguments Done {A} a tr.
Arguments Aborted {A} p tr.

Section Main.
Context `{Toolchain}.

Definition G (A : Type) : Type := list Event -> Outcome A.

#[global] Instance G_ret : MRet G := fun A a tr => Done a tr.

#[global] Instance G_bind : MBind G := fun A B k m tr =>
  match m tr with
  | Done a tr' => k a tr'
  | Aborted p tr' => Aborted p tr'
  end.

Definition abort {A} (p : Fatal) : G A := fun tr => Aborted p tr.

(** The calls made by the end of a run. *)
Definition trace {A} (o : Outcome A) : list Event :=
  match o with Done _ tr => tr | Aborted _ tr => tr end.

(** [check(err)] on the error of a function that also returns a value. *)
Definition check {A} (r : error + A) : G A :=
  match r with inl err => abort (FatalError err) | inr a => mret a end.

(** A call whose error is dropped. *)
Definition ask (e : Event) : G unit := fun tr => Done tt (e :: tr).

(** [check(f(...))] for a call [f] to the operating system. *)
Definition check_ask (e : Event) : G unit :=
  fun tr => match os_error (e :: tr) with
            | None => Done tt (e :: tr)
            | Some err => Aborted (FatalError err) (e :: tr)
            end.

(** [file.GetName()], [file.GetContent()], [resp.GetError()] *)
Definition File_GetName (file : ResponseFile) : string :=
  default "" (File_Name file).
Definition File_GetContent (file : ResponseFile) : string :=
  default "" (File_Content file).
Definition GetError (resp : CodeGeneratorResponse) : string :=
  default "" (Error resp).

(** Use the internal logic of protoc-gen-go to generate the files. *)
Definition generate_files (gen : Plugin) : Plugin :=
  fold_left
    (fun gen file =>
       if GenFile_Generate file then gengo_GenerateFile false gen file
       else gen)
    (Plugin_Files gen) gen.

(** The body of [for _, file := range resp.File]. *)
Definition write_file (run : bool) (file : ResponseFile) : G unit :=
  relPath ← check (filepath_Rel
                     (filepath_FromSlash "github.com/golang/protobuf")
                     (File_GetName file));
  _ ← check_ask (WriteFile (relPath +:+ ".bak") (File_GetContent file) 436);
  if run then
    _ ← ask (Println ["#"; relPath]);
    check_ask (Rename (relPath +:+ ".bak") relPath)
  else
    _ ← ask (Command_Run "diff" [relPath; relPath +:+ ".bak"; "-N"; "-u"]);
    ask (Remove (relPath +:+ ".bak")).

Fixpoint write_files (run : bool) (fs : list ResponseFile) : G unit :=
  match fs with
  | [] => mret tt
  | file :: fs' => _ ← write_file run file; write_files run fs'
  end.

(** [main], for the value [run] of the flag [-execute]. *)
Definition main (run : bool) : G unit :=
  match build_request files with
  | None => abort FatalSliceBounds
  | Some req =>
    gen ← check (protogen_New req);
    let gen := generate_files gen in
    (* Write the generated files. *)
    let resp := Plugin_Response gen in
    match Error resp with
    | Some _ => abort (FatalString ("gengo error: " +:+ GetError resp))
    | None => write_files run (Files resp)
    end
  end.

End Main.

End Regenerate.

(** * A small toolchain to run the command in

    Descriptors are their paths; the generator answers with one fixed
    response (or [protogen] refuses the request), and the operating system
    never fails. *)
Module ToyRegenerate.
Import Regenerate.
Import Stdlib.Strings.Ascii.

(** The last element of a slash-separated path. *)
Fixpoint Base_from (acc s : string) : string :=
  match s with
  | EmptyString => acc
  | String c s' =>
      if Ascii.eqb c "/" then Base_from "" s'
      else Base_from (acc +:+ String c "") s'
  end.

(** [targpath] without the leading [basepath] and slash. *)
Fixpoint Rel (basepath targpath : string) : error + string :=
  match basepath, targpath with
  | EmptyString, String c rest =>
      if Ascii.eqb c "/" then inr rest else inl "Rel: can't make relative"
  | String a basepath', String c targpath' =>
      if Ascii.eqb a c then Rel basepath' targpath'
      else inl "Rel: can't make relative"
  | _, EmptyString => inl "Rel: can't make relative"
  end.

#[local] Instance schema : Schema := {|
  File := string;
  File_Path := fun file => file;
  File_Syntax := fun _ => "proto3";
  FileProto := string;
  ToFileDescriptorProto := fun file => file;
  File_google_protobuf_descriptor_proto := "google/protobuf/descriptor.proto";
  File_google_protobuf_compiler_plugin_proto :=
    "google/protobuf/compiler/plugin.proto";
  File_google_protobuf_any_proto := "google/protobuf/any.proto";
  File_google_protobuf_duration_proto := "google/protobuf/duration.proto";
  File_google_protobuf_timestamp_proto := "google/protobuf/timestamp.proto";
  File_google_protobuf_wrappers_proto := "google/protobuf/wrappers.proto";
  File_google_protobuf_struct_proto := "google/protobuf/struct.proto";
  File_google_protobuf_empty_proto := "google/protobuf/empty.proto";
  path_Base := Base_from ""
|}.

Definition toolchain (refusal : option error) (resp : CodeGeneratorResponse)
    : Toolchain := {|
  Plugin := unit;
  GenFile := unit;
  protogen_New := fun _ =>
    match refusal with Some err => inl err | None => inr tt end;
  Plugin_Files := fun _ => [];
  GenFile_Generate := fun _ => true;
  gengo_GenerateFile := fun _ gen _ => gen;
  Plugin_Response := fun _ => resp;
  filepath_FromSlash := fun p => p;
  filepath_Rel := Rel;
  os_error := fun _ => None
|}.

(** A response with one generated file. *)
Definition generated : ResponseFile :=
  {| File_Name := Some "github.com/golang/protobuf/ptypes/any/any.pb.go";
     File_Content := Some "package any" |}.

Definition response : CodeGeneratorResponse :=
  {| Error := None; Files := [generated] |}.

Definition working : Toolchain := toolchain None response.
Definition refusing : Toolchain := toolchain (Some "no such file") response.

(** A table of one package, and the request for it. *)
Definition package : Package :=
  {| oldGoPkg := "ptypes/any;any";
     newGoPkg := "types/known/anypb";
     pbDesc := "google/protobuf/any.proto" |}.

Definition forwarding : Forwarding :=
  {| Name := Some "ptypes/any/any.proto";
     Syntax := Some "proto3";
     Dependency := ["google/protobuf/any.proto"];
     PublicDependency := [0];
     GoPackage := Some "ptypes/any;any" |}.

Definition request : CodeGeneratorRequest :=
  {| FileToGenerate := ["ptypes/any/any.proto"];
     Param := Some "Mgoogle/protobuf/any.proto=types/known/anypb";
     ProtoFile := [inl "google/protobuf/any.proto"; inr forwarding] |}.

(** What a run with [-execute] asks of the system, latest first. *)
Definition executed : list Event :=
  [Rename "ptypes/any/any.pb.go.bak" "ptypes/any/any.pb.go";
   Println ["#"; "ptypes/any/any.pb.go"];
   WriteFile "ptypes/any/any.pb.go.bak" "package any" 436].

End ToyRegenerate.

(** * Properties *)

Section Reversal.

(** ** The index loop reverses *)

Lemma at_index_app_mid {A} (pre post : list A) (x : A) :
  at_index (pre ++ x :: post) (len pre) = Some x.
Proof.
  unfold at_index, len. case_decide; [|lia].
  rewrite Nat2Z.id. by apply list_lookup_middle.
Qed.

Lemma swap_ends (pre mid post : list Z) (x y : Z) :
  swap (pre ++ x :: mid ++ y :: post) (len pre) (len pre + len mid + 1)
  = Some (pre ++ y :: mid ++ x :: post).
Proof.
  unfold swap.
  replace (len pre + len mid + 1) with (len (pre ++ x :: mid))
    by (unfold len; rewrite length_app; simpl; lia).
  rewrite (at_index_app_mid pre (mid ++ y :: post) x).
  replace (pre ++ x :: mid ++ y :: post)
    with ((pre ++ x :: mid) ++ y :: post) at 1
    by (by rewrite <- app_assoc).
  rewrite at_index_app_mid.
  unfold len. rewrite !Nat2Z.id. f_equal.
  rewrite insert_app_r_alt by lia.
  rewrite Nat.sub_diag. simpl.
  replace (pre ++ y :: mid ++ y :: post)
    with ((pre ++ y :: mid) ++ y :: post)
    by (by rewrite <- app_assoc).
  rewrite insert_app_r_alt
    by (rewrite !length_app; simpl; lia).
  replace (length (pre ++ x :: mid) - length (pre ++ y :: mid))%nat
    with 0%nat by (rewrite !length_app; simpl; lia).
  simpl. by rewrite <- app_assoc.
Qed.

Lemma reverse_from_step (idxs : list Z) (i j : Z) :
  reverse_from idxs i j =
  if decide (i < j) then
    match swap idxs i j with
    | Some idxs' => reverse_from idxs' (i + 1) (j - 1)
    | None => None
    end
  else Some idxs.
Proof.
  simp reverse_from. destruct (decide (i < j)) as [Hlt|Hge]; simpl.
  - by destruct (swap idxs i j).
  - done.
Qed.

Lemma reverse_from_window :
  forall (n : nat) (pre mid post : list Z),
    length mid = n ->
    reverse_from (pre ++ mid ++ post) (len pre) (len pre + len mid - 1)
    = Some (pre ++ rev mid ++ post).
Proof.
  intros n. induction (lt_wf n) as [k _ IH]. intros pre mid post Hn.
  rewrite reverse_from_step.
  destruct mid as [|x mid].
  { unfold len; simpl. case_decide; [lia|done]. }
  destruct mid as [|y mid' _] using rev_ind.
  { unfold len; simpl. case_decide; [lia|done]. }
  assert (len (x :: mid' ++ [y]) = len mid' + 2) as Hlen
    by (unfold len; simpl; rewrite length_app; simpl; lia).
  rewrite Hlen. case_decide; [|unfold len in *; lia].
  replace (len pre + (len mid' + 2) - 1) with (len pre + len mid' + 1)
    by lia.
  replace (pre ++ (x :: mid' ++ [y]) ++ post)
    with (pre ++ x :: mid' ++ y :: post)
    by (simpl; by rewrite <- app_assoc).
  rewrite swap_ends.
  replace (pre ++ y :: mid' ++ x :: post)
    with ((pre ++ [y]) ++ mid' ++ (x :: post))
    by (by rewrite <- app_assoc).
  replace (len pre + 1) with (len (pre ++ [y]))
    by (unfold len; rewrite length_app; simpl; lia).
  replace (len pre + len mid' + 1 - 1) with (len (pre ++ [y]) + len mid' - 1)
    by (unfold len; rewrite length_app; simpl; lia).
  rewrite (IH (length mid')); [| |done].
  2:{ subst k. simpl. rewrite length_app. simpl. lia. }
  f_equal. simpl. rewrite rev_app_distr. simpl.
  by rewrite <- !app_assoc.
Qed.

(** The loop never leaves the slice, and its result is the reversed list. *)
Lemma reverse_in_place_rev (idxs : list Z) :
  reverse_in_place idxs = Some (rev idxs).
Proof.
  unfold reverse_in_place.
  pose proof (reverse_from_window (length idxs) [] idxs [] eq_refl) as Hw.
  rewrite !app_nil_r in Hw. simpl in Hw. exact Hw.
Qed.

End Reversal.

Section Derivation.
Context `{Collaborators}.

(** Unfolding the monad. *)
Lemma bind_Ret {A B} (m : M A) (k : A -> M B) (s s' : State) (a : A) :
  m s = Ret a s' -> (m ≫= k) s = k a s'.
Proof. unfold mbind, M_bind. by intros ->. Qed.


Lemma ascend_spec (d : Descriptor) :
  forall idxs,
    ascend d idxs = (fun fd => (fd, idxs ++ leaf_to_root d)) <$> root_file d.
Proof.
  induction d as [n i | n i p IH] using Descriptor_rect'; intros idxs; simpl.
  - done.
  - destruct (node p) eqn:Hp; simpl; try done.
    + rewrite IH. destruct (root_file p); simpl; [|done].
      by rewrite <- app_assoc.
    + rewrite IH. destruct (root_file p); simpl; [|done].
      by rewrite <- app_assoc.
Qed.

(** The three ways through [deriveRawDescriptor]. *)
Lemma deriveRawDescriptor_hit (d : Descriptor) (s : State) (v : rawDesc) :
  rawDescCache s !! d = Some v ->
  deriveRawDescriptor d s = Ret (fileDesc v, indexes v) s.
Proof.
  intros Hv. unfold deriveRawDescriptor.
  erewrite bind_Ret; [|unfold rawDescCache_Load; by rewrite Hv]. done.
Qed.

Lemma deriveRawDescriptor_standalone (d : Descriptor) (s : State) :
  rawDescCache s !! d = None -> root_file d = None ->
  deriveRawDescriptor d s = Ret (BNil, None) s.
Proof.
  intros Hv Hroot. unfold deriveRawDescriptor.
  erewrite bind_Ret; [|unfold rawDescCache_Load; by rewrite Hv].
  by rewrite ascend_spec, Hroot.
Qed.

Lemma deriveRawDescriptor_miss (d : Descriptor) (s : State) (fd : FileD) :
  rawDescCache s !! d = None -> root_file d = Some fd ->
  let p := fresh (dom (heap s)) in
  let file := BSlice (Heap p) (raw_bytes fd) in
  let idxs := Some (rev (leaf_to_root d)) in
  deriveRawDescriptor d s =
  Ret (file, idxs)
      {| rawDescCache := <[d := mkRawDesc file idxs]> (rawDescCache s);
         fileDescCache := fileDescCache s;
         heap := <[p := raw_bytes fd]> (heap s);
         calls := CallCompressGZIP :: CallMarshal :: calls s |}.
Proof.
  intros Hv Hroot. simpl. unfold deriveRawDescriptor.
  erewrite bind_Ret; [|unfold rawDescCache_Load; by rewrite Hv].
  rewrite ascend_spec, Hroot. simpl.
  unfold mbind, M_bind, call, alloc, checked. simpl.
  rewrite reverse_in_place_rev. simpl.
  unfold rawDescCache_LoadOrStore, LoadOrStore. simpl. by rewrite Hv.
Qed.

(** [deriveRawDescriptor] always returns. *)
Lemma deriveRawDescriptor_cases (d : Descriptor) (s : State) :
  match rawDescCache s !! d, root_file d with
  | Some v, _ => deriveRawDescriptor d s = Ret (fileDesc v, indexes v) s
  | None, None => deriveRawDescriptor d s = Ret (BNil, None) s
  | None, Some fd =>
      let p := fresh (dom (heap s)) in
      let file := BSlice (Heap p) (raw_bytes fd) in
      let idxs := Some (rev (leaf_to_root d)) in
      deriveRawDescriptor d s =
      Ret (file, idxs)
          {| rawDescCache := <[d := mkRawDesc file idxs]> (rawDescCache s);
             fileDescCache := fileDescCache s;
             heap := <[p := raw_bytes fd]> (heap s);
             calls := CallCompressGZIP :: CallMarshal :: calls s |}
  end.
Proof.
  destruct (rawDescCache s !! d) as [v|] eqn:Hv.
  - by apply deriveRawDescriptor_hit.
  - destruct (root_file d) as [fd|] eqn:Hroot.
    + by apply deriveRawDescriptor_miss.
    + by apply deriveRawDescriptor_standalone.
Qed.

(** The ways through [deriveFileDescriptor]. *)
Lemma deriveFileDescriptor_nil (s : State) :
  deriveFileDescriptor BNil s = Throw IndexOutOfRange s.
Proof. done. Qed.


Lemma deriveFileDescriptor_hit base x data (s : State) fd :
  fileDescCache s !! base = Some fd ->
  deriveFileDescriptor (BSlice base (x :: data)) s = Ret fd s.
Proof.
  intros Hv. unfold deriveFileDescriptor. simpl.
  unfold mbind, M_bind, mret, M_ret, fileDescCache_Load. by rewrite Hv.
Qed.

Lemma deriveFileDescriptor_miss base x data (s : State) fd :
  fileDescCache s !! base = None ->
  decode (x :: data) = inr fd ->
  deriveFileDescriptor (BSlice base (x :: data)) s =
  Ret fd {| rawDescCache := rawDescCache s;
            fileDescCache := <[base := fd]> (fileDescCache s);
            heap := heap s;
            calls := CallUnmarshal :: CallReadAll :: CallNewReader
                     :: calls s |}.
Proof.
  intros Hv Hdec. unfold deriveFileDescriptor, decode in *. simpl.
  unfold mbind, M_bind, mret, M_ret, fileDescCache_Load, call. rewrite Hv.
  simpl. destruct (NewReader (x :: data)) as [|zr]; [done|]. simpl.
  destruct (ReadAll zr) as [|b]; [done|]. simpl.
  rewrite Hdec. simpl.
  unfold fileDescCache_LoadOrStore, LoadOrStore. simpl. by rewrite Hv.
Qed.

Lemma deriveFileDescriptor_fail base x data (s : State) err :
  fileDescCache s !! base = None ->
  decode (x :: data) = inl err ->
  exists cs,
    deriveFileDescriptor (BSlice base (x :: data)) s =
    Throw (PanicError err) (logged cs s).
Proof.
  intros Hv Hdec. unfold deriveFileDescriptor, decode in *. simpl.
  unfold mbind, M_bind, mret, M_ret, fileDescCache_Load, call. rewrite Hv.
  simpl. destruct (NewReader (x :: data)) as [err'|zr].
  { exists [CallNewReader]. by inversion Hdec. }
  simpl. destruct (ReadAll zr) as [err'|b].
  { exists [CallReadAll; CallNewReader]. by inversion Hdec. }
  simpl. rewrite Hdec. by exists [CallUnmarshal; CallReadAll; CallNewReader].
Qed.

End Derivation.


(** ** The caches stay coherent *)

Section Invariant.
Context `{Collaborators}.

Lemma extends_refl (s : State) : extends s s.
Proof. by split. Qed.

Lemma extends_trans (s1 s2 s3 : State) :
  extends s1 s2 -> extends s2 s3 -> extends s1 s3.
Proof. intros [] []. split; by etrans. Qed.

Lemma extends_logged (cs : list Call) (s : State) : extends s (logged cs s).
Proof. by split. Qed.

Lemma coherent_logged (cs : list Call) (s : State) :
  coherent s -> coherent (logged cs s).
Proof. intros [Hraw Hfile]. by split. Qed.

Lemma coherent_init : coherent init.
Proof.
  split; intros ? ? Hlook; simpl in Hlook; by rewrite lookup_empty in Hlook.
Qed.

Lemma resident_extends (s s' : State) (b : ByteSlice) :
  extends s s' -> resident s b -> resident s' b.
Proof.
  intros [_ _ Hheap]. destruct b as [|[p|p] data]; simpl; try done.
  intros Hp. by eapply lookup_weaken.
Qed.

Lemma fresh_heap (s : State) : heap s !! fresh (dom (heap s)) = None.
Proof. apply not_elem_of_dom, is_fresh. Qed.

(** What [deriveRawDescriptor] returns in a coherent state. *)
Lemma deriveRawDescriptor_sound (d : Descriptor) (s : State) :
  coherent s ->
  exists raw idxs s',
    deriveRawDescriptor d s = Ret (raw, idxs) s' /\
    coherent s' /\ extends s s' /\ resident s' raw /\
    match root_file d with
    | None => raw = BNil /\ idxs = None /\ s' = s
    | Some fd =>
        exists p, raw = BSlice (Heap p) (raw_bytes fd) /\
                  idxs = Some (rev (leaf_to_root d)) /\
                  rawDescCache s' !! d = Some (mkRawDesc raw idxs)
    end.
Proof.
  intros Hs. pose proof (deriveRawDescriptor_cases d s) as Hcases.
  destruct (rawDescCache s !! d) as [v|] eqn:Hv.
  - destruct (raw_coherent s Hs d v Hv) as (fd & p & Hroot & -> & Hp).
    rewrite Hroot. eexists _, _, s. split; [exact Hcases|].
    split_and!; [done|apply extends_refl|done|].
    exists p. by rewrite Hv.
  - destruct (root_file d) as [fd|] eqn:Hroot.
    + simpl in Hcases. eexists _, _, _. split; [exact Hcases|].
      pose proof (fresh_heap s) as Hfresh.
      set (p := fresh (dom (heap s))) in *.
      split_and!.
      * split; simpl.
        -- intros d' v' Hd'. destruct (decide (d = d')) as [<-|Hne].
           ++ rewrite lookup_insert_eq in Hd'. injection Hd' as <-.
              exists fd, p. by rewrite lookup_insert_eq.
           ++ rewrite lookup_insert_ne in Hd' by done.
              destruct (raw_coherent s Hs d' v' Hd')
                as (fd' & p' & ? & ? & Hp').
              exists fd', p'. split_and!; [done..|].
              rewrite lookup_insert_ne; [done|]. intros <-. congruence.
        -- intros p' fd' Hp'.
           destruct (file_coherent s Hs p' fd' Hp') as (data & Hdata & Hdec).
           exists data. split; [|done].
           rewrite lookup_insert_ne; [done|]. intros <-. congruence.
      * split; simpl; [by apply insert_subseteq|done|by apply insert_subseteq].
      * simpl. by rewrite lookup_insert_eq.
      * exists p. simpl. by rewrite lookup_insert_eq.
    + eexists _, _, s. split; [exact Hcases|].
      split_and!; [done|apply extends_refl|done..].
Qed.

(** [deriveFileDescriptor] keeps a coherent state coherent, whether it
    returns or panics. *)
Lemma deriveFileDescriptor_sound (raw : ByteSlice) (s : State) :
  coherent s -> resident s raw ->
  coherent (final (deriveFileDescriptor raw s)) /\
  extends s (final (deriveFileDescriptor raw s)).
Proof.
  intros Hs Hres. destruct raw as [|base [|x data]].
  - split; [done|apply extends_refl].
  - split; [done|apply extends_refl].
  - destruct (fileDescCache s !! base) as [fd|] eqn:Hv.
    { rewrite (deriveFileDescriptor_hit _ _ _ _ _ Hv). simpl.
      split; [done|apply extends_refl]. }
    destruct (decode (x :: data)) as [err|fd] eqn:Hdec.
    { destruct (deriveFileDescriptor_fail _ _ _ _ _ Hv Hdec) as [cs ->].
      simpl. split; [by apply coherent_logged|apply extends_logged]. }
    rewrite (deriveFileDescriptor_miss _ _ _ _ _ Hv Hdec). simpl. split.
    + split; simpl; [apply (raw_coherent s Hs)|].
      intros p fd' Hp. destruct (decide (base = Heap p)) as [->|Hne].
      * rewrite lookup_insert_eq in Hp. injection Hp as <-.
        exists (x :: data). by split.
      * rewrite lookup_insert_ne in Hp by done.
        by apply (file_coherent s Hs).
    + split; simpl; [done|by apply insert_subseteq|done].
Qed.

Lemma stateless_ret {A} (a : A) : stateless (mret a).
Proof. done. Qed.

Lemma stateless_checked {A} (o : option A) : stateless (checked o).
Proof. by destruct o. Qed.

Lemma stateless_checked_slice {A} (o : option A) :
  stateless (checked_slice o).
Proof. by destruct o. Qed.

Lemma stateless_bind {A B} (m : M A) (k : A -> M B) :
  stateless m -> (forall a, stateless (k a)) -> stateless (m ≫= k).
Proof.
  intros Hm Hk s. specialize (Hm s). unfold mbind, M_bind.
  destruct (m s) as [a s'|p s']; simpl in *; subst s'; [apply Hk|done].
Qed.

Lemma final_bind_stateless {A B} (m : M A) (k : A -> M B) (s : State) :
  (forall a, stateless (k a)) -> final ((m ≫= k) s) = final (m s).
Proof.
  intros Hk. unfold mbind, M_bind.
  destruct (m s) as [a s'|p s']; simpl; [apply Hk|done].
Qed.

Lemma stateless_descend (rest : list Z) :
  forall md, stateless (descend md rest).
Proof.
  induction rest as [|i rest IH]; intros md; simpl.
  - apply stateless_ret.
  - apply stateless_bind; [apply stateless_checked|done].
Qed.

Lemma stateless_enum_at fd idxs : stateless (enum_at fd idxs).
Proof.
  unfold enum_at. case_decide;
    repeat (apply stateless_bind; [|intros ?]);
    auto using @stateless_checked, @stateless_checked_slice,
               stateless_descend.
Qed.

Lemma stateless_message_at fd idxs : stateless (message_at fd idxs).
Proof.
  unfold message_at.
  repeat (apply stateless_bind; [|intros ?]);
    auto using @stateless_checked, @stateless_checked_slice,
               stateless_descend.
Qed.

Lemma EnumDescriptorProto_and_then (e : GeneratedEnum) :
  EnumDescriptorProto e = EnumRawDescriptor e ≫= and_then enum_at.
Proof. done. Qed.

Lemma MessageDescriptorProto_and_then (m : GeneratedMessage) :
  MessageDescriptorProto m = MessageRawDescriptor m ≫= and_then message_at.
Proof. done. Qed.

Lemma and_then_sound {D} (at_ : FileDescriptorProto -> list Z -> M D)
    (r : ByteSlice * IntSlice) (s : State) :
  (forall fd idxs, stateless (at_ fd idxs)) ->
  coherent s -> resident s (fst r) ->
  coherent (final (and_then at_ r s)) /\ extends s (final (and_then at_ r s)).
Proof.
  intros Hat Hs Hres. destruct r as [raw [idxs|]]; simpl in *.
  - destruct raw as [|base data]; [split; [done|apply extends_refl]|].
    rewrite final_bind_stateless.
    + by apply deriveFileDescriptor_sound.
    + intros fd. apply stateless_bind; [apply Hat|]. intros d.
      apply stateless_ret.
  - destruct raw; (split; [done|apply extends_refl]).
Qed.

(** The raw descriptor of a value, in a coherent state. *)
Lemma EnumRawDescriptor_sound (e : GeneratedEnum) (s : State) :
  coherent s -> admissible s (OpEnumRawDescriptor e) ->
  exists r s',
    EnumRawDescriptor e s = Ret r s' /\
    coherent s' /\ extends s s' /\ resident s' (fst r).
Proof.
  intros Hs Hadm. unfold EnumRawDescriptor, admissible in *. simpl in Hadm.
  destruct (EnumDescriptor e) as [out|]; simpl in *.
  - exists out, s. split_and!; [done..|apply extends_refl|done].
  - destruct (deriveRawDescriptor_sound (EnumTypeOf e)
                (logged [CallEnumTypeOf] s) (coherent_logged _ _ Hs))
      as (raw & idxs & s' & Hrun & Hs' & Hext & Hres & _).
    exists (raw, idxs), s'. split_and!; [|done| |done].
    + by erewrite bind_Ret.
    + eapply extends_trans; [apply (extends_logged [CallEnumTypeOf])|done].
Qed.

Lemma MessageRawDescriptor_sound (m : GeneratedMessage) (s : State) :
  coherent s -> admissible s (OpMessageRawDescriptor m) ->
  exists r s',
    MessageRawDescriptor m s = Ret r s' /\
    coherent s' /\ extends s s' /\ resident s' (fst r).
Proof.
  intros Hs Hadm. unfold MessageRawDescriptor, admissible in *.
  simpl in Hadm. destruct (Descriptor_method m) as [out|]; simpl in *.
  - exists out, s. split_and!; [done..|apply extends_refl|done].
  - destruct (deriveRawDescriptor_sound (MessageTypeOf m)
                (logged [CallMessageTypeOf] s) (coherent_logged _ _ Hs))
      as (raw & idxs & s' & Hrun & Hs' & Hext & Hres & _).
    exists (raw, idxs), s'. split_and!; [|done| |done].
    + by erewrite bind_Ret.
    + eapply extends_trans; [apply (extends_logged [CallMessageTypeOf])|done].
Qed.

(** ** Concurrent calls of [deriveRawDescriptor] *)

(** A call that runs alone takes its three steps in a row. *)
Lemma deriveRawDescriptor_advance (d : Descriptor) (s : State) :
  (g1 ← advance (Called d); g2 ← advance g1; advance g2) s
  = match deriveRawDescriptor d s with
    | Ret out s' => Ret (Returned d out) s'
    | Throw p s' => Throw p s'
    end.
Proof.
  unfold deriveRawDescriptor, advance, mbind, M_bind, mret, M_ret,
    rawDescCache_Load.
  destruct (rawDescCache s !! d) as [v|] eqn:Hv; [done|].
  destruct (ascend d []) as [[fd idxs]|]; [|done].
  unfold call, alloc, checked. rewrite reverse_in_place_rev.
  unfold rawDescCache_LoadOrStore, LoadOrStore, mret, M_ret. simpl.
  by rewrite Hv.
Qed.

Lemma goroutine_ok_extends (s s' : State) (g : Goroutine) :
  extends s s' -> goroutine_ok s g -> goroutine_ok s' g.
Proof.
  intros [_ _ Hheap]. destruct g as [d|d|d file idxs|d out]; simpl; try done.
  intros (fd & p & ? & ? & ? & Hp). exists fd, p. split_and!; [done..|].
  by eapply lookup_weaken.
Qed.

(** A step of a call keeps the state coherent and the call in order, and it
    never panics. *)
Lemma advance_sound (g : Goroutine) (s : State) :
  coherent s -> goroutine_ok s g ->
  exists g' s',
    advance g s = Ret g' s' /\
    coherent s' /\ extends s s' /\ goroutine_ok s' g'.
Proof.
  intros Hs Hg. destruct g as [d|d|d file idxs|d out]; simpl in *.
  - unfold mbind, M_bind, rawDescCache_Load.
    destruct (rawDescCache s !! d) as [v|] eqn:Hv.
    + destruct (raw_coherent s Hs d v Hv) as (fd & p & Hroot & -> & Hp).
      eexists _, s. split_and!; [done..|apply extends_refl|].
      simpl. rewrite Hroot. by exists p.
    + eexists _, s. split_and!; [done..|apply extends_refl|done].
  - rewrite ascend_spec. destruct (root_file d) as [fd|] eqn:Hroot; simpl.
    + unfold mbind, M_bind, call, alloc, checked. simpl.
      rewrite reverse_in_place_rev. simpl.
      pose proof (fresh_heap s) as Hfresh.
      set (p := fresh (dom (heap s))) in *.
      eexists _, _. split; [done|]. split_and!.
      * split; simpl.
        -- intros d' v' Hd'.
           destruct (raw_coherent s Hs d' v' Hd')
             as (fd' & p' & ? & ? & Hp').
           exists fd', p'. split_and!; [done..|].
           rewrite lookup_insert_ne; [done|]. intros <-. congruence.
        -- intros p' fd' Hp'.
           destruct (file_coherent s Hs p' fd' Hp') as (data & Hdata & Hdec).
           exists data. split; [|done].
           rewrite lookup_insert_ne; [done|]. intros <-. congruence.
      * split; simpl; [done..|by apply insert_subseteq].
      * simpl. exists fd, p. split_and!; [done..|].
        simpl. by rewrite lookup_insert_eq.
    + eexists _, s. split_and!; [done..|apply extends_refl|].
      simpl. by rewrite Hroot.
  - destruct Hg as (fd & p & Hroot & -> & -> & Hp).
    unfold mbind, M_bind, rawDescCache_LoadOrStore, LoadOrStore.
    destruct (rawDescCache s !! d) as [v|] eqn:Hv; simpl.
    + destruct (raw_coherent s Hs d v Hv) as (fd' & p' & Hroot' & -> & Hp').
      eexists _, _. split; [done|].
      split_and!; [by destruct Hs|by split| ].
      simpl. rewrite Hroot'. by exists p'.
    + eexists _, _. split; [done|]. split_and!.
      * split; simpl; [|apply (file_coherent s Hs)].
        intros d' v' Hd'. destruct (decide (d = d')) as [<-|Hne].
        -- rewrite lookup_insert_eq in Hd'. injection Hd' as <-.
           by exists fd, p.
        -- rewrite lookup_insert_ne in Hd' by done.
           by apply (raw_coherent s Hs).
      * split; simpl; [by apply insert_subseteq|done..].
      * simpl. rewrite Hroot. by exists p.
  - eexists _, s. split_and!; [done..|apply extends_refl|done].
Qed.

Lemma Interleaving_sound (s s' : State) (pool pool' : list Goroutine) :
  Interleaving (s, pool) (s', pool') ->
  coherent s -> Forall (goroutine_ok s) pool ->
  coherent s' /\ extends s s' /\ Forall (goroutine_ok s') pool'.
Proof.
  intros Hrun Hs Hpool. remember (s', pool') as c' eqn:Hc'.
  revert s' pool' Hc'.
  induction Hrun as [|s1 pool1 i g g' s2 _ IH Hi Hstep];
    intros s' pool' Hc'.
  - injection Hc' as <- <-. split_and!; [done|apply extends_refl|done].
  - injection Hc' as <- <-.
    destruct (IH s1 pool1 eq_refl) as (Hs1 & Hext1 & Hpool1).
    assert (goroutine_ok s1 g) as Hg
      by (eapply Forall_lookup_1; [exact Hpool1|exact Hi]).
    destruct (advance_sound g s1 Hs1 Hg) as (g'' & s'' & Hstep' & ? & ? & ?).
    rewrite Hstep in Hstep'. injection Hstep' as <- <-.
    split_and!; [done|by eapply extends_trans|].
    apply Forall_insert; [|done].
    eapply Forall_impl; [exact Hpool1|].
    intros g0. by apply goroutine_ok_extends.
Qed.

(** Every operation keeps the state coherent and only adds to it. *)
Lemma exec_sound (op : Op) (s : State) :
  coherent s -> admissible s op ->
  coherent (exec op s) /\ extends s (exec op s).
Proof.
  intros Hs Hadm. destruct op as [e|m|e|m|m]; simpl.
  - destruct (EnumRawDescriptor_sound e s Hs Hadm)
      as (r & s' & -> & ? & ? & _). by simpl.
  - destruct (MessageRawDescriptor_sound m s Hs Hadm)
      as (r & s' & -> & ? & ? & _). by simpl.
  - destruct (EnumRawDescriptor_sound e s Hs Hadm)
      as (r & s' & Hrun & Hs' & Hext & Hres).
    rewrite EnumDescriptorProto_and_then, (bind_Ret _ _ _ _ _ Hrun).
    destruct (and_then_sound enum_at r s' stateless_enum_at Hs' Hres).
    split; [done|by eapply extends_trans].
  - destruct (MessageRawDescriptor_sound m s Hs Hadm)
      as (r & s' & Hrun & Hs' & Hext & Hres).
    rewrite MessageDescriptorProto_and_then, (bind_Ret _ _ _ _ _ Hrun).
    destruct (and_then_sound message_at r s' stateless_message_at Hs' Hres).
    split; [done|by eapply extends_trans].
  - unfold ForMessage.
    destruct (MessageRawDescriptor_sound (as_GeneratedMessage m) s Hs Hadm)
      as (r & s' & Hrun & Hs' & Hext & Hres).
    rewrite MessageDescriptorProto_and_then, (bind_Ret _ _ _ _ _ Hrun).
    destruct (and_then_sound message_at r s' stateless_message_at Hs' Hres).
    split; [done|by eapply extends_trans].
Qed.

Lemma Steps_sound (s s' : State) :
  Steps s s' -> coherent s -> coherent s' /\ extends s s'.
Proof.
  induction 1 as [s|s s' op _ IH Hadm]; intros Hs.
  - split; [done|apply extends_refl].
  - destruct (IH Hs) as [Hs' Hext].
    destruct (exec_sound op s' Hs' Hadm) as [? ?].
    split; [done|by eapply extends_trans].
Qed.

Lemma Reachable_coherent (s : State) : Reachable s -> coherent s.
Proof. intros Hr. by apply (Steps_sound init s Hr), coherent_init. Qed.

End Invariant.


(** ** Navigation *)

Section NavigateFacts.
Context {F G D : Type}.
Context (top_messages : F -> list G) (nested_messages : G -> list G).
Context (top : F -> list D) (nested : G -> list D).

Lemma navigate_in_snoc (init : list Z) :
  forall (g : G) (i : Z) (rest : list Z) (l : Z),
    i :: rest = init ++ [l] ->
    navigate_in nested_messages nested g i rest
    = g' ← walk nested_messages g init; at_index (nested g') l.
Proof.
  induction init as [|a init IH]; intros g i rest l Heq; simpl in *.
  - by injection Heq as -> ->.
  - injection Heq as -> ->.
    destruct (init ++ [l]) as [|j rest'] eqn:Hsnoc.
    { by destruct init. }
    simpl. destruct (at_index (nested_messages g) a) as [g'|]; simpl; [|done].
    by apply IH.
Qed.

(** The last index of a path of length two or more selects inside the
    message the indexes before it lead to. *)
Lemma navigate_snoc (f : F) (path : list Z) (l : Z) :
  path <> [] ->
  navigate top_messages nested_messages top nested f (path ++ [l])
  = g ← enter top_messages nested_messages f path; at_index (nested g) l.
Proof.
  destruct path as [|i path]; [done|]. intros _. simpl.
  destruct (path ++ [l]) as [|j rest] eqn:Hsnoc.
  { by destruct path. }
  destruct (at_index (top_messages f) i) as [g|]; simpl; [|done].
  by apply navigate_in_snoc.
Qed.

Lemma walk_snoc (path : list Z) :
  forall (g : G) (l : Z),
    walk nested_messages g (path ++ [l])
    = g' ← walk nested_messages g path; at_index (nested_messages g') l.
Proof.
  induction path as [|i path IH]; intros g l; simpl.
  - by destruct (at_index (nested_messages g) l).
  - destruct (at_index (nested_messages g) i) as [g'|]; simpl; [|done].
    apply IH.
Qed.

End NavigateFacts.

Section NavigateMessages.
Context {F G : Type}.
Context (top_messages : F -> list G) (nested_messages : G -> list G).

(** When the target kind is the message, navigating is entering. *)
Lemma navigate_enter (f : F) (path : list Z) :
  navigate top_messages nested_messages top_messages nested_messages f path
  = enter top_messages nested_messages f path.
Proof.
  destruct path as [|l path _] using rev_ind; [done|].
  destruct path as [|i path].
  - simpl. by destruct (at_index (top_messages f) l).
  - rewrite navigate_snoc by done. simpl.
    destruct (at_index (top_messages f) i) as [g|]; simpl; [|done].
    by rewrite walk_snoc.
Qed.

End NavigateMessages.

Section NavigateMap.
Context {F G D F' G' D' : Type}.
Context (top_messages : F -> list G) (nested_messages : G -> list G).
Context (top : F -> list D) (nested : G -> list D).
Context (top_messages' : F' -> list G') (nested_messages' : G' -> list G').
Context (top' : F' -> list D') (nested' : G' -> list D').
Context (onF : F -> F') (onG : G -> G') (onD : D -> D').
Context (Htm : forall f, top_messages' (onF f) = onG <$> top_messages f).
Context (Hnm : forall g, nested_messages' (onG g) = onG <$> nested_messages g).
Context (Ht : forall f, top' (onF f) = onD <$> top f).
Context (Hn : forall g, nested' (onG g) = onD <$> nested g).

Lemma at_index_fmap {A B} (h : A -> B) (l : list A) (i : Z) :
  at_index (h <$> l) i = h <$> at_index l i.
Proof. unfold at_index. case_decide; [apply list_lookup_fmap|done]. Qed.

Lemma navigate_in_fmap (rest : list Z) :
  forall (g : G) (i : Z),
    navigate_in nested_messages' nested' (onG g) i rest
    = onD <$> navigate_in nested_messages nested g i rest.
Proof.
  induction rest as [|j rest IH]; intros g i; simpl.
  - by rewrite Hn, at_index_fmap.
  - rewrite Hnm, at_index_fmap.
    destruct (at_index (nested_messages g) i) as [g'|]; simpl; [|done].
    apply IH.
Qed.

(** A copy of the tree that keeps the order of declarations is navigated
    like the tree. *)
Lemma navigate_fmap (f : F) (path : list Z) :
  navigate top_messages' nested_messages' top' nested' (onF f) path
  = onD <$> navigate top_messages nested_messages top nested f path.
Proof.
  destruct path as [|i [|j rest]]; simpl.
  - done.
  - by rewrite Ht, at_index_fmap.
  - rewrite Htm, at_index_fmap.
    destruct (at_index (top_messages f) i) as [g|]; simpl; [|done].
    apply navigate_in_fmap.
Qed.

End NavigateMap.


(** ** The navigation in the code is [locate] *)

Section Locate.
Context `{Collaborators}.

Lemma slice_tail {A} (i : A) (rest : list A) :
  slice (i :: rest) 1 (len (i :: rest)) = Some rest.
Proof.
  unfold slice, len. simpl length. case_decide; [|lia]. f_equal.
  replace (Z.to_nat (Z.of_nat (S (length rest)) - 1)) with (length rest)
    by lia.
  change (Z.to_nat 1) with 1%nat. simpl. rewrite drop_0. by rewrite take_ge.
Qed.

Lemma slice_middle {A} (i l : A) (init : list A) :
  slice (i :: init ++ [l]) 1 (len (i :: init ++ [l]) - 1) = Some init.
Proof.
  unfold slice, len. simpl length. rewrite length_app. simpl length.
  case_decide; [|lia]. f_equal.
  replace (Z.to_nat (Z.of_nat (S (length init + 1)) - 1 - 1))
    with (length init) by lia.
  change (Z.to_nat 1) with 1%nat. simpl. rewrite drop_0.
  by rewrite take_app_le, take_ge.
Qed.

Lemma at_index_last {A} (i l : A) (init : list A) :
  at_index (i :: init ++ [l]) (len (i :: init ++ [l]) - 1) = Some l.
Proof.
  replace (len (i :: init ++ [l]) - 1) with (len (i :: init))
    by (unfold len; simpl; rewrite length_app; simpl; lia).
  apply (at_index_app_mid (i :: init) [] l).
Qed.

Lemma descend_walk (path : list Z) :
  forall md s, descend md path s = checked (walk NestedType md path) s.
Proof.
  induction path as [|i path IH]; intros md s; simpl; [done|].
  destruct (at_index (NestedType md) i) as [md'|]; simpl; [|done].
  unfold mbind at 1, M_bind. simpl. apply IH.
Qed.

Lemma message_at_locate fd (idxs : list Z) (s : State) :
  message_at fd idxs s = checked (locate_message fd idxs) s.
Proof.
  unfold locate_message. rewrite navigate_enter. unfold message_at.
  destruct idxs as [|i rest]; [done|].
  unfold mbind at 1, M_bind. simpl.
  destruct (at_index (File_MessageType fd) i) as [md|]; simpl; [|done].
  unfold mbind at 1, M_bind. simpl.
  change (Z.pos (Pos.of_succ_nat (length rest))) with (len (i :: rest)).
  rewrite slice_tail. unfold mbind, M_bind. simpl. apply descend_walk.
Qed.

Lemma locate_enum_long fd (i l : Z) (init : list Z) :
  locate_enum fd (i :: init ++ [l])
  = md ← at_index (File_MessageType fd) i;
    md' ← walk NestedType md init;
    at_index (EnumType md') l.
Proof.
  unfold locate_enum. change (i :: init ++ [l]) with ((i :: init) ++ [l]).
  rewrite navigate_snoc by done. simpl.
  by destruct (at_index (File_MessageType fd) i).
Qed.

Lemma enum_at_long fd (i l : Z) (init : list Z) (s : State) :
  enum_at fd (i :: init ++ [l]) s
  = (md ← checked (at_index (File_MessageType fd) i);
     md' ← descend md init;
     checked (at_index (EnumType md') l)) s.
Proof.
  unfold enum_at. case_decide as Hlen.
  { unfold len in Hlen. simpl in Hlen. rewrite length_app in Hlen.
    simpl in Hlen. lia. }
  rewrite slice_middle, at_index_last. done.
Qed.

Lemma enum_at_locate fd (idxs : list Z) (s : State) :
  enum_at fd idxs s = checked (locate_enum fd idxs) s.
Proof.
  destruct idxs as [|i tail]; [done|].
  destruct tail as [|l init _] using rev_ind.
  { unfold enum_at, locate_enum. simpl. unfold mbind, M_bind. simpl.
    by destruct (at_index (File_EnumType fd) i). }
  rewrite enum_at_long, locate_enum_long.
  unfold mbind at 1, M_bind.
  destruct (at_index (File_MessageType fd) i) as [md|]; simpl; [|done].
  unfold mbind at 1, M_bind. rewrite descend_walk.
  by destruct (walk NestedType md init) as [md'|].
Qed.

End Locate.


(** * The claims *)

Section Claims.
Context `{Collaborators}.

Lemma standalone_uncached (s : State) (d : Descriptor) :
  coherent s -> root_file d = None -> rawDescCache s !! d = None.
Proof.
  intros Hs Hroot. destruct (rawDescCache s !! d) as [v|] eqn:Hv; [|done].
  destruct (raw_coherent s Hs d v Hv) as (fd & p & Hfd & _). congruence.
Qed.

(** C1.  A descriptor whose parent chain ends in a nil parent before it
    reaches a file has no legacy representation: in every state the program
    can reach, [deriveRawDescriptor] returns [(nil, nil)] for it, and so do
    [EnumRawDescriptor] and [MessageRawDescriptor] for a value the registry
    maps to it, while [EnumDescriptorProto] and [MessageDescriptorProto]
    return the pair of nil pointers.  None of them panics, and nothing is
    cached. *)
Theorem standalone_descriptor_sentinel (s : State) (d : Descriptor) :
  Reachable s -> root_file d = None ->
  deriveRawDescriptor d s = Ret (BNil, None) s /\
  (forall e, EnumDescriptor e = None -> EnumTypeOf e = d ->
     EnumRawDescriptor e s = Ret (BNil, None) (logged [CallEnumTypeOf] s) /\
     EnumDescriptorProto e s
     = Ret (None, None) (logged [CallEnumTypeOf] s)) /\
  (forall m, Descriptor_method m = None -> MessageTypeOf m = d ->
     MessageRawDescriptor m s
     = Ret (BNil, None) (logged [CallMessageTypeOf] s) /\
     MessageDescriptorProto m s
     = Ret (None, None) (logged [CallMessageTypeOf] s)).
Proof.
  intros Hs%Reachable_coherent Hroot.
  assert (forall cs, deriveRawDescriptor d (logged cs s)
                     = Ret (BNil, None) (logged cs s)) as Hd.
  { intros cs. apply deriveRawDescriptor_standalone; [|done].
    by apply (standalone_uncached s). }
  split_and!.
  - apply deriveRawDescriptor_standalone; [|done].
    by apply standalone_uncached.
  - intros e He <-.
    assert (EnumRawDescriptor e s
            = Ret (BNil, None) (logged [CallEnumTypeOf] s)) as Hraw.
    { unfold EnumRawDescriptor. rewrite He.
      erewrite bind_Ret; [apply (Hd [CallEnumTypeOf])|done]. }
    split; [done|].
    by rewrite EnumDescriptorProto_and_then, (bind_Ret _ _ _ _ _ Hraw).
  - intros m Hm <-.
    assert (MessageRawDescriptor m s
            = Ret (BNil, None) (logged [CallMessageTypeOf] s)) as Hraw.
    { unfold MessageRawDescriptor. rewrite Hm.
      erewrite bind_Ret; [apply (Hd [CallMessageTypeOf])|done]. }
    split; [done|].
    by rewrite MessageDescriptorProto_and_then, (bind_Ret _ _ _ _ _ Hraw).
Qed.

(** C2.  For every decoded root tree [fd] and index path [idxs], the
    navigation of [EnumDescriptorProto] ends at the enum that [locate] finds
    along [idxs], and the navigation of [MessageDescriptorProto] at the
    message that [locate] finds: a path of length 1 selects among the
    top-level declarations of the target kind; in a longer path the first
    index selects a top-level message, the intermediate ones descend through
    nested messages, and the last selects a nested enum, resp. a nested
    message.  Where [locate] finds nothing, an index is out of range and the
    navigation panics.  So, once the raw descriptor [(rawDesc, idxs)] of a
    value is known and [rawDesc] decodes to [fd], the two operations return
    [fd] with that declaration. *)
Theorem navigation_is_locate :
  (forall fd idxs s,
     enum_at fd idxs s = checked (locate_enum fd idxs) s /\
     message_at fd idxs s = checked (locate_message fd idxs) s) /\
  (forall e s rawDesc idxs s1 fd s2,
     EnumRawDescriptor e s = Ret (rawDesc, Some idxs) s1 ->
     rawDesc <> BNil ->
     deriveFileDescriptor rawDesc s1 = Ret fd s2 ->
     EnumDescriptorProto e s =
     match locate_enum fd idxs with
     | Some ed => Ret (Some fd, Some ed) s2
     | None => Throw IndexOutOfRange s2
     end) /\
  (forall m s rawDesc idxs s1 fd s2,
     MessageRawDescriptor m s = Ret (rawDesc, Some idxs) s1 ->
     rawDesc <> BNil ->
     deriveFileDescriptor rawDesc s1 = Ret fd s2 ->
     MessageDescriptorProto m s =
     match locate_message fd idxs with
     | Some md => Ret (Some fd, Some md) s2
     | None => Throw IndexOutOfRange s2
     end).
Proof.
  split_and!.
  - intros fd idxs s. split; [apply enum_at_locate|apply message_at_locate].
  - intros e s rawDesc idxs s1 fd s2 Hraw Hnil Hfd.
    rewrite EnumDescriptorProto_and_then, (bind_Ret _ _ _ _ _ Hraw).
    destruct rawDesc as [|base data]; [done|]. simpl.
    rewrite (bind_Ret _ _ _ _ _ Hfd).
    unfold mbind, M_bind. rewrite enum_at_locate.
    by destruct (locate_enum fd idxs).
  - intros m s rawDesc idxs s1 fd s2 Hraw Hnil Hfd.
    rewrite MessageDescriptorProto_and_then, (bind_Ret _ _ _ _ _ Hraw).
    destruct rawDesc as [|base data]; [done|]. simpl.
    rewrite (bind_Ret _ _ _ _ _ Hfd).
    unfold mbind, M_bind. rewrite message_at_locate.
    by destruct (locate_message fd idxs).
Qed.

(** C3.  For a descriptor whose parent chain reaches a file,
    [deriveRawDescriptor] returns, in every reachable state, the leaf-to-root
    sequence of [Index()] values reversed.  A top-level message declared
    first in its file gets [[0]]; the first message nested in it gets
    [[0, 0]]. *)
Theorem index_path_is_reversed_ascent (s : State) :
  Reachable s ->
  (forall d fd, root_file d = Some fd ->
     exists raw s',
       deriveRawDescriptor d s = Ret (raw, Some (rev (leaf_to_root d))) s') /\
  (forall f i p foo_m bar_m,
     let file := Desc (NFile f) i p in
     let foo := Desc (NMessage foo_m) 0 (Some file) in
     let bar := Desc (NMessage bar_m) 0 (Some foo) in
     (exists raw s', deriveRawDescriptor foo s = Ret (raw, Some [0]) s') /\
     (exists raw s', deriveRawDescriptor bar s = Ret (raw, Some [0; 0]) s')).
Proof.
  intros Hs%Reachable_coherent.
  assert (forall d fd, root_file d = Some fd ->
            exists raw s',
              deriveRawDescriptor d s
              = Ret (raw, Some (rev (leaf_to_root d))) s') as Hgen.
  { intros d fd Hroot.
    destruct (deriveRawDescriptor_sound d s Hs)
      as (raw & idxs & s' & Hrun & _ & _ & _ & Hshape).
    rewrite Hroot in Hshape. destruct Hshape as (p & _ & -> & _).
    by exists raw, s'. }
  split; [done|]. intros f i p foo_m bar_m file foo bar. split.
  - apply (Hgen foo f). done.
  - apply (Hgen bar f). done.
Qed.

(** C4.  A value that has its own accessor gets exactly what the accessor
    returns, whatever the registry and the derivation would give: the state
    is left as it was, so neither the registry nor [deriveRawDescriptor]
    (which would record a call or touch a cache) has run. *)
Theorem fast_path_precedence :
  (forall t out s,
     EnumRawDescriptor {| enum_go_type := t; EnumDescriptor := Some out |} s
     = Ret out s) /\
  (forall t out s,
     MessageRawDescriptor
       {| message_go_type := t; Descriptor_method := Some out |} s
     = Ret out s).
Proof. by split. Qed.

(** C5.  For a descriptor whose parent chain reaches a file, any two calls
    of [deriveRawDescriptor], in whatever states the program has reached,
    return buffers with the same bytes and the same index path.  Once the
    cache holds a value for the descriptor, every later call returns that
    value, buffer and path, and changes nothing.  The same bytes and path are
    what every call returns when calls run concurrently, in whatever order
    their cache operations interleave. *)
Theorem derivation_is_deterministic (d : Descriptor) :
  (forall s1 s2 fd,
     Reachable s1 -> Reachable s2 -> root_file d = Some fd ->
     exists base1 base2 data idxs s1' s2',
       deriveRawDescriptor d s1 = Ret (BSlice base1 data, Some idxs) s1' /\
       deriveRawDescriptor d s2 = Ret (BSlice base2 data, Some idxs) s2') /\
  (forall s s' v,
     Reachable s -> rawDescCache s !! d = Some v -> Steps s s' ->
     deriveRawDescriptor d s' = Ret (fileDesc v, indexes v) s') /\
  (forall s pool s' pool' i out fd,
     Reachable s -> all_called pool ->
     Interleaving (s, pool) (s', pool') ->
     pool' !! i = Some (Returned d out) -> root_file d = Some fd ->
     exists base,
       out = (BSlice base (raw_bytes fd), Some (rev (leaf_to_root d)))).
Proof.
  split_and!.
  - intros s1 s2 fd Hs1%Reachable_coherent Hs2%Reachable_coherent Hroot.
    destruct (deriveRawDescriptor_sound d s1 Hs1)
      as (raw1 & idxs1 & s1' & Hrun1 & _ & _ & _ & Hshape1).
    destruct (deriveRawDescriptor_sound d s2 Hs2)
      as (raw2 & idxs2 & s2' & Hrun2 & _ & _ & _ & Hshape2).
    rewrite Hroot in Hshape1, Hshape2.
    destruct Hshape1 as (p1 & -> & -> & _).
    destruct Hshape2 as (p2 & -> & -> & _).
    by eexists _, _, _, _, _, _.
  - intros s s' v Hs%Reachable_coherent Hv Hsteps.
    apply deriveRawDescriptor_hit.
    destruct (Steps_sound s s' Hsteps Hs) as [_ [Hraw _ _]].
    by eapply lookup_weaken.
  - intros s pool s' pool' i out fd Hs%Reachable_coherent Hpool Hrun Hi Hroot.
    assert (Forall (goroutine_ok s) pool) as Hok.
    { eapply Forall_impl; [exact Hpool|]. by intros g [d' ->]. }
    destruct (Interleaving_sound s s' pool pool' Hrun Hs Hok)
      as (_ & _ & Hok').
    pose proof (Forall_lookup_1 _ _ _ _ Hok' Hi) as Hout. simpl in Hout.
    rewrite Hroot in Hout. destruct Hout as [p ->]. by exists (Heap p).
Qed.

(** C6, as amended.  A buffer whose first byte is not yet a key of the
    file-tree cache, and whose bytes do not decompress or do not parse, makes
    [deriveFileDescriptor] panic; nothing is stored.  (A nil or empty buffer
    panics on [&rawDesc[0]] before anything is decoded.) *)
Theorem undecodable_uncached_buffer_panics (s : State) (rawDesc : ByteSlice)
    (err : error) :
  uncached s rawDesc ->
  decode (bytes_of rawDesc) = inl err ->
  exists p s',
    deriveFileDescriptor rawDesc s = Throw p s' /\
    fileDescCache s' = fileDescCache s /\
    rawDescCache s' = rawDescCache s.
Proof.
  intros Hun Hdec. destruct rawDesc as [|base [|x data]]; simpl in *.
  - by exists IndexOutOfRange, s.
  - by exists IndexOutOfRange, s.
  - destruct (deriveFileDescriptor_fail _ _ _ _ _ Hun Hdec) as [cs Hrun].
    by exists (PanicError err), (logged cs s).
Qed.

Lemma decode_raw_bytes `{!Faithful} (fd : FileD) :
  decode (raw_bytes fd) = inr (ToFileDescriptorProto fd).
Proof.
  unfold decode, raw_bytes.
  destruct (gunzip_gzip (fst (Marshal (ToFileDescriptorProto fd))))
    as (zr & -> & ->).
  apply unmarshal_marshal.
Qed.

Lemma attached_rooted (d : Descriptor) :
  attached d -> exists fd, root_file d = Some fd.
Proof.
  induction d as [n i | n i p IH] using Descriptor_rect'; simpl; [done|].
  intros [_ Hp]. destruct (node p); eauto.
Qed.

(** A declaration attached to a file is where its index path says. *)
Lemma attached_declared (d : Descriptor) (fd : FileD) :
  attached d -> root_file d = Some fd ->
  match node d with
  | NMessage m => declared_message fd (rev (leaf_to_root d)) = Some m
  | NEnum e => declared_enum fd (rev (leaf_to_root d)) = Some e
  | NFile _ => False
  end.
Proof.
  induction d as [n i | n i p IH] using Descriptor_rect'; simpl; [done|].
  intros [Hlisted Hp] Hroot. unfold listed in Hlisted. simpl in Hlisted.
  destruct (node p) as [f|pm|pe] eqn:Hnode.
  - injection Hroot as ->. by destruct n.
  - specialize (IH Hp Hroot).
    assert (rev (leaf_to_root p) <> []) as Hne.
    { destruct p as [? j ?]. simpl. intros Hnil.
      by apply app_eq_nil in Hnil as [_ ?]. }
    unfold declared_message, declared_enum in *.
    rewrite navigate_enter in IH.
    destruct n as [f|m|e]; [done|..];
      rewrite navigate_snoc by done; rewrite IH; exact Hlisted.
  - by destruct n.
Qed.

Lemma locate_message_to_proto `{!Faithful} (fd : FileD) (path : list Z) :
  locate_message (ToFileDescriptorProto fd) path
  = ToDescriptorProto <$> declared_message fd path.
Proof.
  apply (navigate_fmap file_Messages message_Messages
           file_Messages message_Messages _ _ _ _
           ToFileDescriptorProto ToDescriptorProto ToDescriptorProto);
    auto using to_file_messages, to_nested_messages.
Qed.

Lemma locate_enum_to_proto `{!Faithful} (fd : FileD) (path : list Z) :
  locate_enum (ToFileDescriptorProto fd) path
  = ToEnumDescriptorProto <$> declared_enum fd path.
Proof.
  apply (navigate_fmap file_Messages message_Messages
           file_Enums message_Enums _ _ _ _
           ToFileDescriptorProto ToDescriptorProto ToEnumDescriptorProto);
    auto using to_file_messages, to_nested_messages, to_file_enums,
               to_nested_enums.
Qed.

(** The pipeline of C7 in a coherent state. *)
Lemma round_trip_coherent {faithful : Faithful} (s : State)
    (d : Descriptor) (fd : FileD) :
  coherent s -> attached d -> root_file d = Some fd ->
  exists base data idxs s1 s2,
    deriveRawDescriptor d s = Ret (BSlice base data, Some idxs) s1 /\
    deriveFileDescriptor (BSlice base data) s1
    = Ret (ToFileDescriptorProto fd) s2 /\
    match node d with
    | NMessage m =>
        exists md,
          message_at (ToFileDescriptorProto fd) idxs s2 = Ret md s2 /\
          Name md = Some (message_Name m)
    | NEnum e =>
        exists ed,
          enum_at (ToFileDescriptorProto fd) idxs s2 = Ret ed s2 /\
          Enum_Name ed = Some (enum_Name e)
    | NFile _ => False
    end.
Proof.
  intros Hs Hatt Hroot.
  destruct (deriveRawDescriptor_sound d s Hs)
    as (raw & idxs & s1 & Hrun & Hs1 & _ & Hres & Hshape).
  rewrite Hroot in Hshape. destruct Hshape as (p & -> & -> & _).
  pose proof (decode_raw_bytes fd) as Hdec.
  assert (exists s2, deriveFileDescriptor (BSlice (Heap p) (raw_bytes fd)) s1
                     = Ret (ToFileDescriptorProto fd) s2) as [s2 Hfile].
  { simpl in Hres. pose proof (gzip_nonempty
      (fst (Marshal (ToFileDescriptorProto fd)))) as Hne.
    fold (raw_bytes fd) in Hne.
    destruct (raw_bytes fd) as [|x data] eqn:Hbytes; [done|].
    destruct (fileDescCache s1 !! Heap p) as [fd'|] eqn:Hv.
    - destruct (file_coherent s1 Hs1 p fd' Hv) as (data' & Hdata & Hdec').
      assert (fd' = ToFileDescriptorProto fd) as -> by congruence.
      eexists. by apply deriveFileDescriptor_hit.
    - eexists. by apply deriveFileDescriptor_miss. }
  exists (Heap p), (raw_bytes fd), (rev (leaf_to_root d)), s1, s2.
  split_and!; [done..|].
  pose proof (attached_declared d fd Hatt Hroot) as Hdecl.
  destruct (node d) as [f|m|e]; [done|..].
  - exists (ToDescriptorProto m). split; [|apply to_message_name].
    by rewrite message_at_locate, locate_message_to_proto, Hdecl.
  - exists (ToEnumDescriptorProto e). split; [|apply to_enum_name].
    by rewrite enum_at_locate, locate_enum_to_proto, Hdecl.
Qed.

(** C7.  Let the collaborators be faithful and [d] be a message or enum
    declaration attached to the root file [fd].  In every reachable state,
    [deriveRawDescriptor] returns a buffer and an index path, then
    [deriveFileDescriptor] decodes the buffer to the root tree of [fd], and
    the navigation along the path ends at a declaration of the same kind as
    [d] that carries the name of [d].  So [MessageDescriptorProto], resp.
    [EnumDescriptorProto], of a value that the registry maps to [d] returns
    the root tree of [fd] and a declaration with the name of [d]. *)
Theorem round_trip {faithful : Faithful} (s : State) (d : Descriptor)
    (fd : FileD) :
  Reachable s -> attached d -> root_file d = Some fd ->
  (exists rawDesc idxs s1 s2,
     deriveRawDescriptor d s = Ret (rawDesc, Some idxs) s1 /\
     deriveFileDescriptor rawDesc s1 = Ret (ToFileDescriptorProto fd) s2 /\
     match node d with
     | NMessage m =>
         exists md,
           message_at (ToFileDescriptorProto fd) idxs s2 = Ret md s2 /\
           Name md = Some (message_Name m)
     | NEnum e =>
         exists ed,
           enum_at (ToFileDescriptorProto fd) idxs s2 = Ret ed s2 /\
           Enum_Name ed = Some (enum_Name e)
     | NFile _ => False
     end) /\
  (forall m dm,
     Descriptor_method m = None -> MessageTypeOf m = d ->
     node d = NMessage dm ->
     exists md s',
       MessageDescriptorProto m s
       = Ret (Some (ToFileDescriptorProto fd), Some md) s' /\
       Name md = Some (message_Name dm)) /\
  (forall e de,
     EnumDescriptor e = None -> EnumTypeOf e = d ->
     node d = NEnum de ->
     exists ed s',
       EnumDescriptorProto e s
       = Ret (Some (ToFileDescriptorProto fd), Some ed) s' /\
       Enum_Name ed = Some (enum_Name de)).
Proof.
  intros Hs%Reachable_coherent Hatt Hroot. split_and!.
  - destruct (round_trip_coherent s d fd Hs Hatt Hroot)
      as (base & data & idxs & s1 & s2 & ? & ? & ?).
    by exists (BSlice base data), idxs, s1, s2.
  - intros m dm Hm <- Hnode.
    destruct (round_trip_coherent (logged [CallMessageTypeOf] s)
                (MessageTypeOf m) fd (coherent_logged _ _ Hs) Hatt Hroot)
      as (base & data & idxs & s1 & s2 & Hraw & Hfile & Hnav).
    rewrite Hnode in Hnav. destruct Hnav as (md & Hmd & Hname).
    exists md, s2. split; [|done].
    rewrite MessageDescriptorProto_and_then.
    unfold MessageRawDescriptor. rewrite Hm.
    erewrite bind_Ret; [|erewrite bind_Ret; [exact Hraw|done]].
    simpl. rewrite (bind_Ret _ _ _ _ _ Hfile).
    by rewrite (bind_Ret _ _ _ _ _ Hmd).
  - intros e de He <- Hnode.
    destruct (round_trip_coherent (logged [CallEnumTypeOf] s)
                (EnumTypeOf e) fd (coherent_logged _ _ Hs) Hatt Hroot)
      as (base & data & idxs & s1 & s2 & Hraw & Hfile & Hnav).
    rewrite Hnode in Hnav. destruct Hnav as (ed & Hed & Hname).
    exists ed, s2. split; [|done].
    rewrite EnumDescriptorProto_and_then.
    unfold EnumRawDescriptor. rewrite He.
    erewrite bind_Ret; [|erewrite bind_Ret; [exact Hraw|done]].
    simpl. rewrite (bind_Ret _ _ _ _ _ Hfile).
    by rewrite (bind_Ret _ _ _ _ _ Hed).
Qed.

Lemma decodings_decoded (s : State) fds :
  decodings {| rawDescCache := rawDescCache s;
               fileDescCache := fds;
               heap := heap s;
               calls := CallUnmarshal :: CallReadAll :: CallNewReader
                        :: calls s |}
  = S (decodings s).
Proof.
  unfold decodings. simpl calls.
  rewrite !filter_cons. repeat case_decide; done.
Qed.

(** C8.  The file-tree cache is keyed by the buffer, not by its bytes.  When
    a call of [deriveFileDescriptor] has returned a tree, a second call with
    the same buffer returns the same tree and leaves the state as it is, so
    that the two calls together decode at most once.  Two different buffers
    with the same bytes, neither of them in the cache, are both decoded (two
    decodings) and end up under two keys. *)
Theorem file_cache_keyed_by_identity :
  (forall s base data fd s1,
     deriveFileDescriptor (BSlice base data) s = Ret fd s1 ->
     deriveFileDescriptor (BSlice base data) s1 = Ret fd s1 /\
     (decodings s1 <= decodings s + 1)%nat) /\
  (forall s a b data fd,
     a <> b -> data <> [] ->
     fileDescCache s !! a = None -> fileDescCache s !! b = None ->
     decode data = inr fd ->
     exists s1 s2,
       deriveFileDescriptor (BSlice a data) s = Ret fd s1 /\
       deriveFileDescriptor (BSlice b data) s1 = Ret fd s2 /\
       decodings s2 = (decodings s + 2)%nat /\
       fileDescCache s2 !! a = Some fd /\
       fileDescCache s2 !! b = Some fd).
Proof.
  split.
  - intros s base [|x data] fd s1 Hrun; [done|].
    destruct (fileDescCache s !! base) as [fd0|] eqn:Hv.
    + rewrite (deriveFileDescriptor_hit _ _ _ _ _ Hv) in Hrun.
      injection Hrun as <- <-.
      split; [by apply deriveFileDescriptor_hit|lia].
    + destruct (decode (x :: data)) as [err|fd0] eqn:Hdec.
      { destruct (deriveFileDescriptor_fail _ _ _ _ _ Hv Hdec) as [cs Hthrow].
        congruence. }
      rewrite (deriveFileDescriptor_miss _ _ _ _ _ Hv Hdec) in Hrun.
      injection Hrun as <- <-. split.
      * apply deriveFileDescriptor_hit. simpl. apply lookup_insert_eq.
      * rewrite decodings_decoded. lia.
  - intros s a b [|x data] fd Hab Hne Ha Hb Hdec; [done|].
    eexists _, _. split; [by apply deriveFileDescriptor_miss|].
    split.
    { apply deriveFileDescriptor_miss; [|done]. simpl.
      by rewrite lookup_insert_ne. }
    simpl. split_and!.
    + unfold decodings. simpl calls. rewrite !filter_cons.
      repeat case_decide; try done. simpl. lia.
    + rewrite lookup_insert_ne by done. apply lookup_insert_eq.
    + apply lookup_insert_eq.
Qed.

(** C9.  [ForMessage] returns what [MessageDescriptorProto] returns for the
    same message, and leaves the same state. *)
Theorem ForMessage_is_MessageDescriptorProto (m : Message) (s : State) :
  ForMessage m s = MessageDescriptorProto (as_GeneratedMessage m) s.
Proof. reflexivity. Qed.

(** C10.  When the accessor of a value returns a buffer that is not nil but
    empty, with a non-nil index path, [EnumDescriptorProto] and
    [MessageDescriptorProto] panic with an index out of range; the state is
    left as it was, so no decompression was started and no cache was
    written.  The guard lets the pair through because it looks for nil only:
    with a nil buffer the same calls return the pair of nil pointers. *)
Theorem empty_buffer_panics :
  (forall t base idxs s,
     EnumDescriptorProto
       {| enum_go_type := t;
          EnumDescriptor := Some (BSlice base [], Some idxs) |} s
     = Throw IndexOutOfRange s) /\
  (forall t base idxs s,
     MessageDescriptorProto
       {| message_go_type := t;
          Descriptor_method := Some (BSlice base [], Some idxs) |} s
     = Throw IndexOutOfRange s) /\
  (forall t idxs s,
     EnumDescriptorProto
       {| enum_go_type := t; EnumDescriptor := Some (BNil, idxs) |} s
     = Ret (None, None) s) /\
  (forall t idxs s,
     MessageDescriptorProto
       {| message_go_type := t; Descriptor_method := Some (BNil, idxs) |} s
     = Ret (None, None) s).
Proof. by split_and!. Qed.

End Claims.


(** * More about the package *)

Section More.
Context `{Collaborators}.

(** The calls the Decompression Service makes. *)
Definition decoding_call (c : Call) : Prop :=
  c = CallNewReader \/ c = CallReadAll \/ c = CallUnmarshal.

Ltac decoding_calls :=
  repeat (apply Forall_cons_2; [unfold decoding_call; auto|]);
  apply Forall_nil_2.

(** ** What the two derivations do to the state, in any state *)

Lemma deriveRawDescriptor_returns (d : Descriptor) (s : State) :
  exists out s', deriveRawDescriptor d s = Ret out s' /\ extends s s'.
Proof.
  pose proof (deriveRawDescriptor_cases d s) as Hcases.
  destruct (rawDescCache s !! d) as [v|] eqn:Hv.
  - eexists _, s. split; [exact Hcases|apply extends_refl].
  - destruct (root_file d) as [fd|].
    + eexists _, _. split; [exact Hcases|].
      split; simpl; [by apply insert_subseteq|done|].
      apply insert_subseteq, fresh_heap.
    + eexists _, s. split; [exact Hcases|apply extends_refl].
Qed.

(** A derivation that has returned is repeated by any state with the same
    raw-descriptor cache. *)
Lemma deriveRawDescriptor_repeat (d : Descriptor) (s s0 : State) out :
  deriveRawDescriptor d s = Ret out s0 ->
  forall s2, rawDescCache s2 = rawDescCache s0 ->
             deriveRawDescriptor d s2 = Ret out s2.
Proof.
  intros Hrun s2 Hsame.
  pose proof (deriveRawDescriptor_cases d s) as Hcases.
  destruct (rawDescCache s !! d) as [v|] eqn:Hv.
  - rewrite Hcases in Hrun. injection Hrun as <- <-.
    apply deriveRawDescriptor_hit. by rewrite Hsame.
  - destruct (root_file d) as [fd|] eqn:Hroot.
    + simpl in Hcases. rewrite Hcases in Hrun. injection Hrun as <- <-.
      simpl in Hsame.
      rewrite (deriveRawDescriptor_hit d s2 _
                 ltac:(rewrite Hsame; apply lookup_insert_eq)).
      done.
    + rewrite Hcases in Hrun. injection Hrun as <- <-.
      apply deriveRawDescriptor_standalone; [by rewrite Hsame|done].
Qed.

Lemma deriveFileDescriptor_Ret (rawDesc : ByteSlice) (s s1 : State) fd :
  deriveFileDescriptor rawDesc s = Ret fd s1 ->
  exists base x data,
    rawDesc = BSlice base (x :: data) /\
    fileDescCache s1 !! base = Some fd /\
    (fileDescCache s !! base = Some fd /\ s1 = s \/
     fileDescCache s !! base = None /\ decode (x :: data) = inr fd /\
     s1 = {| rawDescCache := rawDescCache s;
             fileDescCache := <[base := fd]> (fileDescCache s);
             heap := heap s;
             calls := CallUnmarshal :: CallReadAll :: CallNewReader
                      :: calls s |}).
Proof.
  intros Hrun. destruct rawDesc as [|base [|x data]]; [done..|].
  exists base, x, data. split; [done|].
  destruct (fileDescCache s !! base) as [fd0|] eqn:Hv.
  - rewrite (deriveFileDescriptor_hit _ _ _ _ _ Hv) in Hrun.
    injection Hrun as <- <-. split; [done|by left].
  - destruct (decode (x :: data)) as [err|fd0] eqn:Hdec.
    { destruct (deriveFileDescriptor_fail _ _ _ _ _ Hv Hdec) as [cs Hthrow].
      congruence. }
    rewrite (deriveFileDescriptor_miss _ _ _ _ _ Hv Hdec) in Hrun.
    injection Hrun as <- <-. split; [apply lookup_insert_eq|by right].
Qed.

Lemma deriveFileDescriptor_Throw (rawDesc : ByteSlice) (s s1 : State) p :
  deriveFileDescriptor rawDesc s = Throw p s1 ->
  p = IndexOutOfRange /\ s1 = s \/
  exists err cs,
    p = PanicError err /\ decode (bytes_of rawDesc) = inl err /\
    s1 = logged cs s /\ Forall decoding_call cs.
Proof.
  intros Hrun. destruct rawDesc as [|base [|x data]].
  - left. by injection Hrun as <- <-.
  - left. by injection Hrun as <- <-.
  - destruct (fileDescCache s !! base) as [fd0|] eqn:Hv.
    { by rewrite (deriveFileDescriptor_hit _ _ _ _ _ Hv) in Hrun. }
    destruct (decode (x :: data)) as [err|fd0] eqn:Hdec.
    2:{ by rewrite (deriveFileDescriptor_miss _ _ _ _ _ Hv Hdec) in Hrun. }
    right. exists err. revert Hrun Hdec.
    unfold deriveFileDescriptor, decode. simpl.
    unfold mbind, M_bind, mret, M_ret, fileDescCache_Load, call.
    rewrite Hv. simpl.
    destruct (NewReader (x :: data)) as [err'|zr].
    { intros [= <- <-] [= <-]. exists [CallNewReader].
      split_and!; [done..|]. decoding_calls. }
    simpl. destruct (ReadAll zr) as [err'|b].
    { intros [= <- <-] [= <-]. exists [CallReadAll; CallNewReader].
      split_and!; [done..|]. decoding_calls. }
    simpl. intros Hrun Hdec. rewrite Hdec in Hrun.
    injection Hrun as <- <-.
    exists [CallUnmarshal; CallReadAll; CallNewReader].
    split_and!; [done..|]. decoding_calls.
Qed.

(** However it ends, [deriveFileDescriptor] leaves the raw-descriptor cache
    and the heap alone, keeps the file-tree cache, and makes decoding calls
    only. *)
Lemma deriveFileDescriptor_final (rawDesc : ByteSlice) (s : State) :
  let s' := final (deriveFileDescriptor rawDesc s) in
  rawDescCache s' = rawDescCache s /\ heap s' = heap s /\
  fileDescCache s ⊆ fileDescCache s' /\
  exists cs, calls s' = cs ++ calls s /\ Forall decoding_call cs.
Proof.
  simpl. destruct (deriveFileDescriptor rawDesc s) as [fd s1|p s1] eqn:Hrun;
    simpl.
  - destruct (deriveFileDescriptor_Ret _ _ _ _ Hrun)
      as (base & x & data & -> & _ & [[_ ->]|(Hv & _ & ->)]).
    + split_and!; [done..|]. by exists [].
    + simpl. split_and!; [done..|by apply insert_subseteq|].
      exists [CallUnmarshal; CallReadAll; CallNewReader].
      split; [done|]. decoding_calls.
  - destruct (deriveFileDescriptor_Throw _ _ _ _ Hrun)
      as [[_ ->]|(err & cs & _ & _ & -> & Hcs)].
    + split_and!; [done..|]. by exists [].
    + simpl. split_and!; [done..|]. by exists cs.
Qed.

Lemma EnumRawDescriptor_returns (e : GeneratedEnum) (s : State) :
  exists out s', EnumRawDescriptor e s = Ret out s' /\ extends s s'.
Proof.
  unfold EnumRawDescriptor. destruct (EnumDescriptor e) as [out|].
  - exists out, s. split; [done|apply extends_refl].
  - destruct (deriveRawDescriptor_returns (EnumTypeOf e)
                (logged [CallEnumTypeOf] s)) as (out & s' & Hrun & Hext).
    exists out, s'. split; [by erewrite bind_Ret|].
    eapply extends_trans; [apply (extends_logged [CallEnumTypeOf])|done].
Qed.

Lemma MessageRawDescriptor_returns (m : GeneratedMessage) (s : State) :
  exists out s', MessageRawDescriptor m s = Ret out s' /\ extends s s'.
Proof.
  unfold MessageRawDescriptor. destruct (Descriptor_method m) as [out|].
  - exists out, s. split; [done|apply extends_refl].
  - destruct (deriveRawDescriptor_returns (MessageTypeOf m)
                (logged [CallMessageTypeOf] s)) as (out & s' & Hrun & Hext).
    exists out, s'. split; [by erewrite bind_Ret|].
    eapply extends_trans; [apply (extends_logged [CallMessageTypeOf])|done].
Qed.


Lemma and_then_final {D} (at_ : FileDescriptorProto -> list Z -> M D)
    (r : ByteSlice * IntSlice) (s : State) :
  (forall fd idxs, stateless (at_ fd idxs)) ->
  let s' := final (and_then at_ r s) in
  rawDescCache s' = rawDescCache s /\ heap s' = heap s /\
  fileDescCache s ⊆ fileDescCache s' /\
  exists cs, calls s' = cs ++ calls s /\ Forall decoding_call cs.
Proof.
  intros Hat. destruct r as [raw [idxs|]]; simpl.
  - destruct raw as [|base data].
    { split_and!; [done..|]. by exists []. }
    rewrite final_bind_stateless.
    + apply deriveFileDescriptor_final.
    + intros fd. apply stateless_bind; [apply Hat|]. intros d.
      apply stateless_ret.
  - destruct raw; (split_and!; [done..|]; by exists []).
Qed.

(** X2.  No operation ever takes an entry out of a cache or changes one, and
    no buffer of the heap is ever dropped or rewritten: after any operation,
    in any state and however the operation ends, both caches and the heap
    contain what they contained. *)
Theorem caches_only_grow (op : Op) (s : State) :
  rawDescCache s ⊆ rawDescCache (exec op s) /\
  fileDescCache s ⊆ fileDescCache (exec op s) /\
  heap s ⊆ heap (exec op s).
Proof.
  assert (forall {D} (at_ : FileDescriptorProto -> list Z -> M D) r s0,
            (forall fd idxs, stateless (at_ fd idxs)) ->
            extends s s0 -> extends s (final (and_then at_ r s0))) as Hthen.
  { intros D at_ r s0 Hat Hext.
    destruct (and_then_final at_ r s0 Hat) as (Hraw & Hheap & Hfile & _).
    eapply extends_trans; [exact Hext|].
    split; [by rewrite Hraw|done|by rewrite Hheap]. }
  cut (extends s (exec op s)); [by intros []|].
  destruct op as [e|m|e|m|m]; simpl.
  - by destruct (EnumRawDescriptor_returns e s) as (r & s' & -> & ?).
  - by destruct (MessageRawDescriptor_returns m s) as (r & s' & -> & ?).
  - destruct (EnumRawDescriptor_returns e s) as (r & s' & Hrun & Hext).
    rewrite EnumDescriptorProto_and_then, (bind_Ret _ _ _ _ _ Hrun).
    apply Hthen; [apply stateless_enum_at|done].
  - destruct (MessageRawDescriptor_returns m s) as (r & s' & Hrun & Hext).
    rewrite MessageDescriptorProto_and_then, (bind_Ret _ _ _ _ _ Hrun).
    apply Hthen; [apply stateless_message_at|done].
  - unfold ForMessage.
    destruct (MessageRawDescriptor_returns (as_GeneratedMessage m) s)
      as (r & s' & Hrun & Hext).
    rewrite MessageDescriptorProto_and_then, (bind_Ret _ _ _ _ _ Hrun).
    apply Hthen; [apply stateless_message_at|done].
Qed.

(** A navigation that has returned returns the same in any state. *)
Definition state_blind {D} (at_ : FileDescriptorProto -> list Z -> M D)
  : Prop :=
  forall fd idxs s a s',
    at_ fd idxs s = Ret a s' -> forall s2, at_ fd idxs s2 = Ret a s2.

Lemma state_blind_enum_at : state_blind enum_at.
Proof.
  intros fd idxs s a s' Hrun s2. rewrite enum_at_locate in *.
  destruct (locate_enum fd idxs); simpl in *; [|done].
  by injection Hrun as -> _.
Qed.

Lemma state_blind_message_at : state_blind message_at.
Proof.
  intros fd idxs s a s' Hrun s2. rewrite message_at_locate in *.
  destruct (locate_message fd idxs); simpl in *; [|done].
  by injection Hrun as -> _.
Qed.

Lemma and_then_repeat {D} (at_ : FileDescriptorProto -> list Z -> M D)
    (r : ByteSlice * IntSlice) (s s1 : State) res :
  (forall fd idxs, stateless (at_ fd idxs)) -> state_blind at_ ->
  and_then at_ r s = Ret res s1 ->
  rawDescCache s1 = rawDescCache s /\
  forall s2, fileDescCache s1 ⊆ fileDescCache s2 ->
             and_then at_ r s2 = Ret res s2.
Proof.
  intros Hstateless Hblind Hrun.
  destruct (and_then_final at_ r s Hstateless) as (Hraw & _).
  rewrite Hrun in Hraw. simpl in Hraw. split; [done|].
  intros s2 Hsub. destruct r as [raw [idxs|]]; simpl in *.
  - destruct raw as [|base data]; [by injection Hrun as <- <-|].
    unfold mbind, M_bind in Hrun.
    destruct (deriveFileDescriptor (BSlice base data) s) as [fd s'|p s']
      eqn:Hfile; [|done].
    destruct (at_ fd idxs s') as [a s''|p s''] eqn:Hat; [|done].
    injection Hrun as <- <-.
    pose proof (Hstateless fd idxs s') as Hsame. rewrite Hat in Hsame.
    simpl in Hsame. subst s''.
    destruct (deriveFileDescriptor_Ret _ _ _ _ Hfile)
      as (base' & x & data' & [= -> ->] & Hv & _).
    rewrite (bind_Ret _ _ s2 s2 fd).
    + by rewrite (bind_Ret _ _ s2 s2 a (Hblind _ _ _ _ _ Hat s2)).
    + apply deriveFileDescriptor_hit. by eapply lookup_weaken.
  - destruct raw; by injection Hrun as <- <-.
Qed.

(** X3.  A call of [MessageDescriptorProto] or [EnumDescriptorProto] that
    has returned is repeated from the caches: called again on the same value
    it returns the same pair, and all that happens is the registry lookup
    (for a value without accessor; nothing for a value with one).  Nothing is
    serialized, compressed, decompressed or parsed again, in whatever state
    the first call was made. *)
Theorem repeated_call_is_served_from_the_caches :
  (forall m s res s1,
     MessageDescriptorProto m s = Ret res s1 ->
     MessageDescriptorProto m s1 =
     Ret res match Descriptor_method m with
             | Some _ => s1
             | None => logged [CallMessageTypeOf] s1
             end) /\
  (forall e s res s1,
     EnumDescriptorProto e s = Ret res s1 ->
     EnumDescriptorProto e s1 =
     Ret res match EnumDescriptor e with
             | Some _ => s1
             | None => logged [CallEnumTypeOf] s1
             end).
Proof.
  split.
  - intros m s res s1. rewrite !MessageDescriptorProto_and_then.
    unfold MessageRawDescriptor.
    destruct (Descriptor_method m) as [out|].
    + intros Hrun. rewrite (bind_Ret _ _ s s out eq_refl) in Hrun.
      rewrite (bind_Ret _ _ s1 s1 out eq_refl).
      by apply (and_then_repeat message_at out s s1 res
                  stateless_message_at state_blind_message_at Hrun).
    + destruct (deriveRawDescriptor_returns (MessageTypeOf m)
                  (logged [CallMessageTypeOf] s)) as (r & s0 & Hraw & _).
      intros Hrun.
      erewrite bind_Ret in Hrun; [|erewrite bind_Ret; [exact Hraw|done]].
      destruct (and_then_repeat message_at r s0 s1 res
                  stateless_message_at state_blind_message_at Hrun)
        as [Hsame Hagain].
      erewrite bind_Ret; [by apply Hagain|].
      erewrite bind_Ret; [|done].
      by apply (deriveRawDescriptor_repeat _ _ _ _ Hraw).
  - intros e s res s1. rewrite !EnumDescriptorProto_and_then.
    unfold EnumRawDescriptor.
    destruct (EnumDescriptor e) as [out|].
    + intros Hrun. rewrite (bind_Ret _ _ s s out eq_refl) in Hrun.
      rewrite (bind_Ret _ _ s1 s1 out eq_refl).
      by apply (and_then_repeat enum_at out s s1 res
                  stateless_enum_at state_blind_enum_at Hrun).
    + destruct (deriveRawDescriptor_returns (EnumTypeOf e)
                  (logged [CallEnumTypeOf] s)) as (r & s0 & Hraw & _).
      intros Hrun.
      erewrite bind_Ret in Hrun; [|erewrite bind_Ret; [exact Hraw|done]].
      destruct (and_then_repeat enum_at r s0 s1 res
                  stateless_enum_at state_blind_enum_at Hrun)
        as [Hsame Hagain].
      erewrite bind_Ret; [by apply Hagain|].
      erewrite bind_Ret; [|done].
      by apply (deriveRawDescriptor_repeat _ _ _ _ Hraw).
Qed.

(** X4.  A value that has its own accessor never sets the derivation in
    motion, not in [MessageDescriptorProto], [EnumDescriptorProto] or
    [ForMessage] either: however the call ends, the raw-descriptor cache and
    the heap are as they were, and the only calls made are those of the
    Decompression Service (no registry lookup, no serialization, no
    compression). *)
Theorem legacy_values_never_derive :
  (forall m s,
     let s' := final (ForMessage m s) in
     rawDescCache s' = rawDescCache s /\ heap s' = heap s /\
     exists cs, calls s' = cs ++ calls s /\ Forall decoding_call cs) /\
  (forall t out s,
     let s' := final (MessageDescriptorProto
                        {| message_go_type := t;
                           Descriptor_method := Some out |} s) in
     rawDescCache s' = rawDescCache s /\ heap s' = heap s /\
     exists cs, calls s' = cs ++ calls s /\ Forall decoding_call cs) /\
  (forall t out s,
     let s' := final (EnumDescriptorProto
                        {| enum_go_type := t; EnumDescriptor := Some out |}
                        s) in
     rawDescCache s' = rawDescCache s /\ heap s' = heap s /\
     exists cs, calls s' = cs ++ calls s /\ Forall decoding_call cs).
Proof.
  split_and!.
  - intros m s. unfold ForMessage.
    rewrite MessageDescriptorProto_and_then.
    rewrite (bind_Ret _ _ s s (Message_Descriptor m) eq_refl).
    destruct (and_then_final message_at (Message_Descriptor m) s
                stateless_message_at) as (? & ? & _ & ?). done.
  - intros t out s. rewrite MessageDescriptorProto_and_then.
    rewrite (bind_Ret _ _ s s out eq_refl).
    destruct (and_then_final message_at out s stateless_message_at)
      as (? & ? & _ & ?). done.
  - intros t out s. rewrite EnumDescriptorProto_and_then.
    rewrite (bind_Ret _ _ s s out eq_refl).
    destruct (and_then_final enum_at out s stateless_enum_at)
      as (? & ? & _ & ?). done.
Qed.



(** X6.  A path that leads to no declaration of the tree (the empty path,
    for one) makes the operation panic with an index out of range only after
    the buffer has been decoded: the tree is in the file-tree cache when the
    panic is raised. *)
Theorem missing_declaration_panics_after_caching
    (base : addr) (x : byte) (data : list byte) (idxs : list Z)
    (s : State) (fd : FileDescriptorProto) :
  fileDescCache s !! base = None ->
  decode (x :: data) = inr fd ->
  let s' := {| rawDescCache := rawDescCache s;
               fileDescCache := <[base := fd]> (fileDescCache s);
               heap := heap s;
               calls := CallUnmarshal :: CallReadAll :: CallNewReader
                        :: calls s |} in
  (forall t, locate_message fd idxs = None ->
     MessageDescriptorProto
       {| message_go_type := t;
          Descriptor_method := Some (BSlice base (x :: data), Some idxs) |} s
     = Throw IndexOutOfRange s') /\
  (forall t, locate_enum fd idxs = None ->
     EnumDescriptorProto
       {| enum_go_type := t;
          EnumDescriptor := Some (BSlice base (x :: data), Some idxs) |} s
     = Throw IndexOutOfRange s') /\
  locate_message fd [] = None /\ locate_enum fd [] = None.
Proof.
  intros Hv Hdec s'. split_and!; [| |done..].
  - intros t Hloc. rewrite MessageDescriptorProto_and_then.
    rewrite (bind_Ret _ _ s s (BSlice base (x :: data), Some idxs) eq_refl).
    simpl.
    rewrite (bind_Ret _ _ _ _ _ (deriveFileDescriptor_miss _ _ _ _ _ Hv Hdec)).
    unfold mbind, M_bind. by rewrite message_at_locate, Hloc.
  - intros t Hloc. rewrite EnumDescriptorProto_and_then.
    rewrite (bind_Ret _ _ s s (BSlice base (x :: data), Some idxs) eq_refl).
    simpl.
    rewrite (bind_Ret _ _ _ _ _ (deriveFileDescriptor_miss _ _ _ _ _ Hv Hdec)).
    unfold mbind, M_bind. by rewrite enum_at_locate, Hloc.
Qed.

(** X7.  The tree that [deriveFileDescriptor] returns is under the buffer's
    key in the file-tree cache afterwards, and it is either the tree that was
    there before the call or the decoding of the buffer's bytes. *)
Theorem returned_tree_is_cached_or_decoded (rawDesc : ByteSlice)
    (s s1 : State) (fd : FileDescriptorProto) :
  deriveFileDescriptor rawDesc s = Ret fd s1 ->
  exists base,
    first_byte rawDesc s = Ret base s /\
    fileDescCache s1 !! base = Some fd /\
    (fileDescCache s !! base = Some fd \/
     fileDescCache s !! base = None /\ decode (bytes_of rawDesc) = inr fd).
Proof.
  intros Hrun.
  destruct (deriveFileDescriptor_Ret _ _ _ _ Hrun)
    as (base & x & data & -> & Hv & [[? _]|(? & ? & _)]);
    exists base; split_and!; auto.
Qed.

(** X8.  Two different declarations of one file, neither of them derived
    yet, get two buffers: the file is serialized and compressed for each, and
    the two raw descriptors have the same bytes at different addresses (so
    that the file-tree cache will hold the file once per declaration). *)
Theorem declarations_of_a_file_get_separate_buffers
    (s : State) (d1 d2 : Descriptor) (fd : FileD) :
  d1 <> d2 ->
  root_file d1 = Some fd -> root_file d2 = Some fd ->
  rawDescCache s !! d1 = None -> rawDescCache s !! d2 = None ->
  exists p1 p2 idxs1 idxs2 s1 s2,
    deriveRawDescriptor d1 s
    = Ret (BSlice (Heap p1) (raw_bytes fd), Some idxs1) s1 /\
    deriveRawDescriptor d2 s1
    = Ret (BSlice (Heap p2) (raw_bytes fd), Some idxs2) s2 /\
    p1 <> p2 /\
    calls s2 = CallCompressGZIP :: CallMarshal :: CallCompressGZIP
               :: CallMarshal :: calls s.
Proof.
  intros Hne Hroot1 Hroot2 Hv1 Hv2.
  pose proof (deriveRawDescriptor_miss d1 s fd Hv1 Hroot1) as Hrun1.
  simpl in Hrun1.
  eexists _, _, _, _, _, _. split; [exact Hrun1|].
  split; [apply deriveRawDescriptor_miss; [|done]|].
  { simpl. by rewrite lookup_insert_ne. }
  simpl. split; [|done].
  intros Heq.
  pose proof (fresh_heap
    {| rawDescCache := rawDescCache s;
       fileDescCache := fileDescCache s;
       heap := <[fresh (dom (heap s)) := raw_bytes fd]> (heap s);
       calls := calls s |}) as Hfresh.
  simpl in Hfresh. rewrite <- Heq, lookup_insert_eq in Hfresh. done.
Qed.

Lemma leaf_to_root_nonempty (d : Descriptor) : leaf_to_root d <> [].
Proof. by destruct d. Qed.

(** X9.  In every reachable state, what [deriveRawDescriptor] returns is
    either nil with nil, or a buffer with a path that has one index for the
    descriptor and one for each ancestor below the file; so the path of a
    derived raw descriptor is never empty and the two results are never nil
    one without the other. *)
Theorem derived_pair_is_nil_or_complete (s : State) (d : Descriptor) :
  Reachable s ->
  exists out s',
    deriveRawDescriptor d s = Ret out s' /\
    (out = (BNil, None) \/
     exists base data idxs,
       out = (BSlice base data, Some idxs) /\
       length idxs = length (leaf_to_root d) /\ idxs <> []).
Proof.
  intros Hs%Reachable_coherent.
  destruct (deriveRawDescriptor_sound d s Hs)
    as (raw & idxs & s' & Hrun & _ & _ & _ & Hshape).
  exists (raw, idxs), s'. split; [done|].
  destruct (root_file d) as [fd|].
  - destruct Hshape as (p & -> & -> & _). right.
    eexists _, _, _. split; [done|]. split; [apply length_rev|].
    intros Hnil%(f_equal (@length Z)). rewrite length_rev in Hnil.
    pose proof (leaf_to_root_nonempty d). by destruct (leaf_to_root d).
  - destruct Hshape as (-> & -> & _). by left.
Qed.

(** ** Concurrent calls *)

(** What a call has returned is the entry of the cache, unless the
    descriptor belongs to no file. *)
Definition returned_from_cache (s : State) (g : Goroutine) : Prop :=
  match g with
  | Returned d out =>
      rawDescCache s !! d = Some (mkRawDesc (fst out) (snd out)) \/
      out = (BNil, None) /\ root_file d = None
  | _ => True
  end.

Lemma advance_from_cache (g g' : Goroutine) (s s' : State) :
  advance g s = Ret g' s' ->
  returned_from_cache s g ->
  returned_from_cache s' g' /\ extends s s'.
Proof.
  destruct g as [d|d|d file idxs|d out]; simpl.
  - unfold mbind, M_bind, rawDescCache_Load.
    destruct (rawDescCache s !! d) as [[file idxs]|] eqn:Hv;
      intros [= <- <-] _; (split; [|apply extends_refl]); simpl; auto.
  - rewrite ascend_spec. destruct (root_file d) as [fd|] eqn:Hroot; simpl.
    + unfold mbind, M_bind, call, alloc, checked. simpl.
      rewrite reverse_in_place_rev. simpl. intros [= <- <-] _.
      split; [done|]. split; simpl; [done..|].
      apply insert_subseteq, fresh_heap.
    + intros [= <- <-] _. split; [|apply extends_refl]. simpl. by right.
  - unfold mbind, M_bind, rawDescCache_LoadOrStore, LoadOrStore.
    destruct (rawDescCache s !! d) as [[file' idxs']|] eqn:Hv; simpl;
      intros [= <- <-] _.
    + split; [by left|by split].
    + split; [left; simpl; apply lookup_insert_eq|].
      split; simpl; [by apply insert_subseteq|done..].
  - intros [= <- <-] Hg. split; [done|apply extends_refl].
Qed.

Lemma returned_from_cache_extends (s s' : State) (g : Goroutine) :
  extends s s' -> returned_from_cache s g -> returned_from_cache s' g.
Proof.
  intros [Hraw _ _]. destruct g as [d|d|d file idxs|d out]; simpl; try done.
  intros [Hv|?]; [left|by right]. by eapply lookup_weaken.
Qed.

Lemma Interleaving_from_cache (s s' : State) (pool pool' : list Goroutine) :
  Interleaving (s, pool) (s', pool') ->
  Forall (returned_from_cache s) pool ->
  Forall (returned_from_cache s') pool'.
Proof.
  intros Hrun Hpool. remember (s', pool') as c' eqn:Hc'.
  revert s' pool' Hc'.
  induction Hrun as [|s1 pool1 i g g' s2 _ IH Hi Hstep];
    intros s' pool' Hc'; injection Hc' as <- <-; [done|].
  specialize (IH s1 pool1 eq_refl).
  destruct (advance_from_cache g g' s1 s2 Hstep
              (Forall_lookup_1 _ _ _ _ IH Hi)) as [Hg' Hext].
  apply Forall_insert; [|done].
  eapply Forall_impl; [exact IH|].
  intros g0. by apply returned_from_cache_extends.
Qed.

(** X10.  Calls of [deriveRawDescriptor] that run concurrently for the same
    descriptor all return the same pair: the same buffer, not only the same
    bytes, and the same path, whichever of them published it and however
    their cache operations interleaved. *)
Theorem concurrent_calls_return_one_buffer
    (s s' : State) (pool pool' : list Goroutine) (i j : nat)
    (d : Descriptor) (out1 out2 : ByteSlice * IntSlice) :
  Reachable s -> all_called pool ->
  Interleaving (s, pool) (s', pool') ->
  pool' !! i = Some (Returned d out1) ->
  pool' !! j = Some (Returned d out2) ->
  out1 = out2.
Proof.
  intros Hs%Reachable_coherent Hpool Hrun Hi Hj.
  assert (Forall (goroutine_ok s) pool) as Hok.
  { eapply Forall_impl; [exact Hpool|]. by intros g [d' ->]. }
  destruct (Interleaving_sound s s' pool pool' Hrun Hs Hok) as (Hs' & _ & _).
  assert (Forall (returned_from_cache s) pool) as Hcached.
  { eapply Forall_impl; [exact Hpool|]. by intros g [d' ->]. }
  pose proof (Interleaving_from_cache s s' pool pool' Hrun Hcached) as Hall.
  pose proof (Forall_lookup_1 _ _ _ _ Hall Hi) as H1.
  pose proof (Forall_lookup_1 _ _ _ _ Hall Hj) as H2.
  simpl in H1, H2. destruct out1 as [f1 i1], out2 as [f2 i2]. simpl in *.
  destruct H1 as [Hv1|[Hnil1 Hroot1]], H2 as [Hv2|[Hnil2 Hroot2]].
  - congruence.
  - destruct (raw_coherent s' Hs' d _ Hv1) as (fd & p & ? & _). congruence.
  - destruct (raw_coherent s' Hs' d _ Hv2) as (fd & p & ? & _). congruence.
  - congruence.
Qed.

(** Two calls for a descriptor that is not in the cache, scheduled so that
    both miss, both derive, and then publish one after the other. *)
Lemma race (s : State) (d : Descriptor) (fd : FileD) :
  rawDescCache s !! d = None -> root_file d = Some fd ->
  exists p1 p2 s',
    let idxs := rev (leaf_to_root d) in
    let won := BSlice (Heap p1) (raw_bytes fd) in
    p1 <> p2 /\
    Interleaving (s, [Called d; Called d])
                 (s', [Returned d (won, Some idxs);
                       Returned d (won, Some idxs)]) /\
    rawDescCache s' !! d = Some (mkRawDesc won (Some idxs)) /\
    heap s' !! p1 = Some (raw_bytes fd) /\
    heap s' !! p2 = Some (raw_bytes fd) /\
    calls s' = CallCompressGZIP :: CallMarshal :: CallCompressGZIP
               :: CallMarshal :: calls s.
Proof.
  intros Hv Hroot.
  set (idxs := rev (leaf_to_root d)).
  set (p1 := fresh (dom (heap s))).
  set (sA := {| rawDescCache := rawDescCache s;
                fileDescCache := fileDescCache s;
                heap := <[p1 := raw_bytes fd]> (heap s);
                calls := CallCompressGZIP :: CallMarshal :: calls s |}).
  set (p2 := fresh (dom (heap sA))).
  set (sB := {| rawDescCache := rawDescCache s;
                fileDescCache := fileDescCache s;
                heap := <[p2 := raw_bytes fd]> (heap sA);
                calls := CallCompressGZIP :: CallMarshal :: calls sA |}).
  set (won := BSlice (Heap p1) (raw_bytes fd)).
  set (lost := BSlice (Heap p2) (raw_bytes fd)).
  set (sC := {| rawDescCache :=
                  <[d := mkRawDesc won (Some idxs)]> (rawDescCache s);
                fileDescCache := fileDescCache s;
                heap := heap sB;
                calls := calls sB |}).
  assert (p1 <> p2) as Hne.
  { intros Heq. pose proof (fresh_heap sA) as Hfresh. fold p2 in Hfresh.
    rewrite <- Heq in Hfresh. simpl in Hfresh.
    by rewrite lookup_insert_eq in Hfresh. }
  assert (forall s0, rawDescCache s0 = rawDescCache s ->
            advance (Called d) s0 = Ret (Deriving d) s0) as Hload.
  { intros s0 Hsame. simpl. unfold mbind, M_bind, rawDescCache_Load.
    by rewrite Hsame, Hv. }
  assert (forall s0,
            advance (Deriving d) s0 =
            Ret (Publishing d (BSlice (Heap (fresh (dom (heap s0))))
                                 (raw_bytes fd)) idxs)
                {| rawDescCache := rawDescCache s0;
                   fileDescCache := fileDescCache s0;
                   heap := <[fresh (dom (heap s0)) := raw_bytes fd]> (heap s0);
                   calls := CallCompressGZIP :: CallMarshal :: calls s0 |})
    as Hderive.
  { intros s0. simpl. rewrite ascend_spec, Hroot. simpl.
    unfold mbind, M_bind, call, alloc, checked. simpl.
    by rewrite reverse_in_place_rev. }
  assert (advance (Publishing d won idxs) sB
          = Ret (Returned d (won, Some idxs)) sC) as Hwin.
  { simpl. unfold mbind, M_bind, rawDescCache_LoadOrStore, LoadOrStore.
    simpl. by rewrite Hv. }
  assert (advance (Publishing d lost idxs) sC
          = Ret (Returned d (won, Some idxs)) sC) as Hlose.
  { simpl. unfold mbind, M_bind, rawDescCache_LoadOrStore, LoadOrStore.
    simpl. by rewrite lookup_insert_eq. }
  exists p1, p2, sC. split; [exact Hne|]. split; [|split_and!].
  - pose proof (Interleaving_refl (s, [Called d; Called d])) as R0.
    pose proof (Interleaving_step _ _ _ 0%nat _ _ _ R0 eq_refl
                  (Hload s eq_refl)) as R1.
    pose proof (Interleaving_step _ _ _ 1%nat _ _ _ R1 eq_refl
                  (Hload s eq_refl)) as R2.
    pose proof (Interleaving_step _ _ _ 0%nat _ _ _ R2 eq_refl
                  (Hderive s)) as R3.
    pose proof (Interleaving_step _ _ _ 1%nat _ _ _ R3 eq_refl
                  (Hderive sA)) as R4.
    pose proof (Interleaving_step _ _ _ 0%nat _ _ _ R4 eq_refl Hwin) as R5.
    exact (Interleaving_step _ _ _ 1%nat _ _ _ R5 eq_refl Hlose).
  - simpl. apply lookup_insert_eq.
  - simpl. rewrite lookup_insert_ne by done. apply lookup_insert_eq.
  - simpl. apply lookup_insert_eq.
  - done.
Qed.

(** X11.  On a cache miss two concurrent calls may both run the derivation:
    there is a schedule in which the root is serialized and compressed
    twice, into two buffers, and both calls still return the buffer that was
    published first; the other buffer stays on the heap, in no cache. *)
Theorem losing_derivation_is_discarded (s : State) (d : Descriptor)
    (fd : FileD) :
  rawDescCache s !! d = None -> root_file d = Some fd ->
  exists p1 p2 s',
    let idxs := rev (leaf_to_root d) in
    let won := BSlice (Heap p1) (raw_bytes fd) in
    p1 <> p2 /\
    Interleaving (s, [Called d; Called d])
                 (s', [Returned d (won, Some idxs);
                       Returned d (won, Some idxs)]) /\
    rawDescCache s' !! d = Some (mkRawDesc won (Some idxs)) /\
    heap s' !! p2 = Some (raw_bytes fd) /\
    calls s' = CallCompressGZIP :: CallMarshal :: CallCompressGZIP
               :: CallMarshal :: calls s.
Proof.
  intros Hv Hroot.
  destruct (race s d fd Hv Hroot)
    as (p1 & p2 & s' & Hne & Hrun & Hcache & _ & Hlost & Hcalls).
  exists p1, p2, s'. by split_and!.
Qed.

End More.

(** * More about the regeneration command *)

Section RegenerateFacts.
Import Regenerate.
Import Stdlib.Strings.Ascii.
Context `{Toolchain}.

(** The character [c] occurs in [s]. *)
Definition occurs (c : Ascii.ascii) (s : string) : Prop :=
  exists a b, s = a +:+ String c b.

Lemma occurs_nil c : ~ occurs c "".
Proof. intros [[|x a] [b Hs]]; discriminate Hs. Qed.

Lemma occurs_cons c x s : occurs c (String x s) <-> x = c \/ occurs c s.
Proof.
  split.
  - intros [[|y a] [b Hs]]; simpl in Hs; injection Hs as -> ->.
    + by left.
    + right. by exists a, b.
  - intros [->|[a [b ->]]].
    + by exists "", s.
    + by exists (String x a), b.
Qed.

Lemma IndexByte_bound s c :
  -1 <= IndexByte s c < Z.of_nat (String.length s).
Proof.
  induction s as [|x s IH]; simpl; [lia|].
  destruct (Ascii.eqb x c); [lia|].
  destruct (decide (IndexByte s c < 0)); lia.
Qed.

(** The slice [s[:IndexByte(s, c)]] is what precedes the first [c], and
    faults when there is none. *)
Lemma prefix_IndexByte s c :
  match prefix s (IndexByte s c) with
  | Some pre => (exists post, s = pre +:+ String c post) /\ ~ occurs c pre
  | None => ~ occurs c s
  end.
Proof.
  induction s as [|x s IH].
  - apply occurs_nil.
  - simpl. destruct (Ascii.eqb_spec x c) as [->|Hne].
    + unfold prefix. destruct (decide _) as [_|Hn]; [|simpl in Hn; lia].
      simpl. split; [by exists s|apply occurs_nil].
    + pose proof (IndexByte_bound s c) as Hb.
      unfold prefix in IH |- *.
      destruct (decide (IndexByte s c < 0)) as [Hlt|Hge].
      * destruct (decide (0 <= -1 <= _)) as [?|_]; [lia|].
        destruct (decide (0 <= IndexByte s c <= _)) as [?|_]; [lia|].
        rewrite occurs_cons. tauto.
      * destruct (decide (0 <= IndexByte s c + 1 <= _)) as [_|Hn];
          [|simpl String.length in Hn; lia].
        destruct (decide (0 <= IndexByte s c <= _)) as [_|?]; [|lia].
        replace (Z.to_nat (IndexByte s c + 1))
          with (S (Z.to_nat (IndexByte s c))) by lia.
        simpl. destruct IH as [[post Hs] Hno]. split.
        -- exists post. by rewrite Hs at 1.
        -- rewrite occurs_cons. tauto.
Qed.

(** The flag that maps the import path of a descriptor to its new package. *)
Definition mapping (file : Package) : string :=
  "M" +:+ File_Path (pbDesc file) +:+ "=" +:+ newGoPkg file.

(** [fd] is the file that forwards the old package of [file]: it is named
    after what precedes the first semicolon of [oldGoPkg], and its only
    dependency, which it imports publicly, is the descriptor of [file]. *)
Definition forwards (file : Package) (fd : Forwarding) : Prop :=
  exists pkgPath rest,
    oldGoPkg file = pkgPath +:+ String ";"%char rest /\
    ~ occurs ";"%char pkgPath /\
    fd = {| Name := Some (pkgPath +:+ "/" +:+ path_Base pkgPath +:+ ".proto");
            Syntax := Some (File_Syntax (pbDesc file));
            Dependency := [File_Path (pbDesc file)];
            PublicDependency := [0];
            GoPackage := Some (oldGoPkg file) |}.

(** What one package adds to [req.ProtoFile]. *)
Definition entries (file : Package) (fd : Forwarding)
    : list (FileProto + Forwarding) :=
  [inl (ToFileDescriptorProto (pbDesc file)); inr fd].

Lemma forwards_occurs file fd : forwards file fd -> occurs ";"%char (oldGoPkg file).
Proof. intros (pkgPath & rest & Hs & _). by exists pkgPath, rest. Qed.

Lemma add_package_cases req flags file :
  match add_package (req, flags) file with
  | Some (req', flags') =>
      exists fd, forwards file fd /\
        ProtoFile req' = ProtoFile req ++ entries file fd /\
        FileToGenerate req' = FileToGenerate req ++ [GetName fd] /\
        Param req' = Param req /\
        flags' = flags ++ [mapping file]
  | None => ~ occurs ";"%char (oldGoPkg file)
  end.
Proof.
  unfold add_package.
  pose proof (prefix_IndexByte (oldGoPkg file) ";"%char) as Hcut.
  destruct (prefix _ _) as [pkgPath|]; simpl; [|done].
  destruct Hcut as [[rest Hs] Hno].
  eexists. split; [by exists pkgPath, rest|]. done.
Qed.

Lemma add_packages_cases fs : forall req flags,
  match add_packages (req, flags) fs with
  | Some (req', flags') =>
      exists fds, Forall2 forwards fs fds /\
        ProtoFile req' = ProtoFile req ++ concat (zip_with entries fs fds) /\
        FileToGenerate req' = FileToGenerate req ++ map GetName fds /\
        Param req' = Param req /\
        flags' = flags ++ map mapping fs
  | None => Exists (fun file => ~ occurs ";"%char (oldGoPkg file)) fs
  end.
Proof.
  induction fs as [|file fs IH]; intros req flags.
  - simpl. exists []. rewrite !app_nil_r. by repeat split.
  - pose proof (add_package_cases req flags file) as Hone.
    change (add_packages (req, flags) (file :: fs))
      with (add_package (req, flags) file
            ≫= fun acc' => add_packages acc' fs).
    destruct (add_package (req, flags) file) as [[req1 flags1]|]; simpl;
      [|by apply Exists_cons_hd].
    destruct Hone as (fd & Hfd & HP & HF & HPar & Hfl).
    specialize (IH req1 flags1).
    destruct (add_packages _ _) as [[req2 flags2]|];
      [|by apply Exists_cons_tl].
    destruct IH as (fds & Hfds & HP2 & HF2 & HPar2 & Hfl2).
    exists (fd :: fds). split; [by constructor|].
    rewrite HP2, HF2, HPar2, Hfl2, HP, HF, HPar, Hfl. simpl.
    by rewrite <- !app_assoc.
Qed.

Lemma build_request_cases fs :
  match build_request fs with
  | Some req =>
      exists fds, Forall2 forwards fs fds /\
        ProtoFile req = concat (zip_with entries fs fds) /\
        FileToGenerate req = map GetName fds /\
        Param req = Some (Join (map mapping fs) ",")
  | None => Exists (fun file => ~ occurs ";"%char (oldGoPkg file)) fs
  end.
Proof.
  unfold build_request.
  pose proof (add_packages_cases fs
    {| FileToGenerate := []; Param := None; ProtoFile := [] |} []) as Hall.
  destruct (add_packages _ _) as [[req flags]|]; simpl; [|done].
  destruct Hall as (fds & Hfds & HP & HF & _ & Hfl).
  exists fds. by rewrite Hfl.
Qed.

(** Every entry of the table has its semicolon. *)
Lemma files_build : exists req, build_request files = Some req.
Proof.
  pose proof (build_request_cases files) as Hall.
  destruct (build_request files) as [req|]; [by exists req|].
  exfalso. unfold files in Hall.
  repeat (apply Exists_cons in Hall as [Hno|Hall];
          [apply Hno; simpl; eexists _, _;
           match goal with
           | |- ?s = _ =>
               let n := eval cbv in (Z.to_nat (IndexByte s ";"%char)) in
               instantiate (2 := String.substring 0 n s)
           end; reflexivity|]).
  by apply Exists_nil in Hall.
Qed.

(** The calls of the loop body for one generated file, in order. *)
Definition steps (run : bool) (file : ResponseFile) (relPath : string)
    : list Event :=
  WriteFile (relPath +:+ ".bak") (File_GetContent file) 436 ::
  if run then [Println ["#"; relPath]; Rename (relPath +:+ ".bak") relPath]
  else [Command_Run "diff" [relPath; relPath +:+ ".bak"; "-N"; "-u"];
        Remove (relPath +:+ ".bak")].

(** Where [relPath] of a generated file comes from. *)
Definition relative (file : ResponseFile) : error + string :=
  filepath_Rel (filepath_FromSlash "github.com/golang/protobuf")
               (File_GetName file).

Lemma write_file_cases run file tr :
  match relative file with
  | inl err => write_file run file tr = Aborted (FatalError err) tr
  | inr relPath =>
      let w := WriteFile (relPath +:+ ".bak") (File_GetContent file) 436 in
      match os_error (w :: tr) with
      | Some err => write_file run file tr = Aborted (FatalError err) (w :: tr)
      | None =>
          if run then
            let done :=
              Rename (relPath +:+ ".bak") relPath
              :: Println ["#"; relPath] :: w :: tr in
            match os_error done with
            | Some err => write_file run file tr = Aborted (FatalError err) done
            | None => write_file run file tr = Done tt done
            end
          else
            write_file run file tr
            = Done tt (Remove (relPath +:+ ".bak")
                       :: Command_Run "diff"
                            [relPath; relPath +:+ ".bak"; "-N"; "-u"]
                       :: w :: tr)
      end
  end.
Proof.
  unfold write_file, relative, mbind, G_bind, check, check_ask, ask, abort.
  destruct (filepath_Rel _ _) as [err|relPath]; simpl; [done|].
  unfold mret, G_ret.
  destruct (os_error (WriteFile _ _ _ :: tr)) as [err|]; [done|].
  destruct run; [|done].
  by destruct (os_error _) as [err|].
Qed.

(** What a file handled in preview mode may ask of the system, and what one
    handled in execute mode may. *)
Definition previewing (e : Event) : Prop :=
  match e with
  | WriteFile filename _ _ => exists relPath, filename = relPath +:+ ".bak"
  | Command_Run name arg =>
      name = "diff" /\
      exists relPath, arg = [relPath; relPath +:+ ".bak"; "-N"; "-u"]
  | Remove name => exists relPath, name = relPath +:+ ".bak"
  | Println _ | Rename _ _ => False
  end.

Definition executing (e : Event) : Prop :=
  match e with
  | WriteFile filename _ _ => exists relPath, filename = relPath +:+ ".bak"
  | Println a => exists relPath, a = ["#"; relPath]
  | Rename oldpath newpath => oldpath = newpath +:+ ".bak"
  | Command_Run _ _ | Remove _ => False
  end.

Definition allowed (run : bool) : Event -> Prop :=
  if run then executing else previewing.

Lemma write_file_allowed run file tr :
  exists new, trace (write_file run file tr) = new ++ tr /\
              Forall (allowed run) new.
Proof.
  pose proof (write_file_cases run file tr) as Hc.
  destruct (relative file) as [err|relPath].
  { rewrite Hc. by exists []. }
  simpl in Hc.
  destruct (os_error (WriteFile _ _ _ :: tr)) as [err|].
  { rewrite Hc. eexists [_]. split; [done|].
    repeat constructor. destruct run; by exists relPath. }
  destruct run.
  - eexists [_; _; _]. split.
    + by destruct (os_error _); rewrite Hc.
    + repeat constructor; simpl; eauto.
  - rewrite Hc. eexists [_; _; _]. split; [done|].
    repeat constructor; simpl; eauto.
Qed.

Lemma write_files_allowed run fs : forall tr,
  exists new, trace (write_files run fs tr) = new ++ tr /\
              Forall (allowed run) new.
Proof.
  induction fs as [|file fs IH]; intros tr; simpl.
  - by exists [].
  - destruct (write_file_allowed run file tr) as (new1 & Htr1 & Hok1).
    unfold mbind, G_bind.
    destruct (write_file run file tr) as [[] tr1|p tr1]; simpl in Htr1.
    + destruct (IH tr1) as (new2 & Htr2 & Hok2).
      exists (new2 ++ new1). rewrite Htr2, Htr1, app_assoc.
      split; [done|by apply Forall_app].
    + by exists new1.
Qed.

Lemma write_files_Done run fs : forall tr tr',
  write_files run fs tr = Done tt tr' ->
  exists rels,
    Forall2 (fun file relPath => relative file = inr relPath) fs rels /\
    tr' = rev (concat (zip_with (steps run) fs rels)) ++ tr.
Proof.
  induction fs as [|file fs IH]; intros tr tr'; simpl.
  - unfold mret, G_ret. intros [= <-]. by exists [].
  - unfold mbind, G_bind. pose proof (write_file_cases run file tr) as Hc.
    destruct (write_file run file tr) as [[] tr1|p tr1] eqn:Hone; [|done].
    intros Hrest. apply IH in Hrest as (rels & Hrels & ->).
    destruct (relative file) as [err|relPath] eqn:Hrel; [done|].
    simpl in Hc.
    destruct (os_error (WriteFile _ _ _ :: tr)) as [err|]; [done|].
    exists (relPath :: rels). split; [by constructor|].
    simpl zip_with. rewrite concat_cons, rev_app_distr, <- app_assoc.
    f_equal. unfold steps. destruct run.
    + destruct (os_error _) as [err|]; [done|]. by injection Hc as ->.
    + by injection Hc as ->.
Qed.

Lemma write_files_Aborted run fs : forall tr p tr',
  write_files run fs tr = Aborted p tr' -> exists err, p = FatalError err.
Proof.
  induction fs as [|file fs IH]; intros tr p tr'; simpl; [done|].
  unfold mbind, G_bind. pose proof (write_file_cases run file tr) as Hc.
  destruct (write_file run file tr) as [[] tr1|p1 tr1] eqn:Hone.
  - apply IH.
  - intros [= <- <-].
    destruct (relative file) as [err|relPath]; [injection Hc as -> _; eauto|].
    simpl in Hc.
    destruct (os_error (WriteFile _ _ _ :: tr)) as [err|];
      [injection Hc as -> _; eauto|].
    destruct run; [|done].
    destruct (os_error _) as [err|]; [injection Hc as -> _; eauto|done].
Qed.

(** The three ways [main] goes, once the table is known to build. *)
Lemma main_cases run tr :
  exists req, build_request files = Some req /\
    match protogen_New req with
    | inl err => main run tr = Aborted (FatalError err) tr
    | inr gen =>
        let resp := Plugin_Response (generate_files gen) in
        match Error resp with
        | Some e => main run tr = Aborted (FatalString ("gengo error: " +:+ e)) tr
        | None => main run tr = write_files run (Files resp) tr
        end
    end.
Proof.
  destruct files_build as [req Hreq]. exists req. split; [done|].
  unfold main. rewrite Hreq. unfold mbind, G_bind, check, abort.
  destruct (protogen_New req) as [err|gen]; [done|].
  unfold mret, G_ret. simpl. unfold GetError.
  by destruct (Error _) as [e|].
Qed.

(** X12.  [main]'s request loop panics (the slice expression faults) exactly
    when some package of the table it ranges over has no semicolon in its
    old Go package. *)
Theorem request_faults_iff_a_package_lacks_its_semicolon (fs : list Package) :
  build_request fs = None <->
  Exists (fun file => ~ occurs ";"%char (oldGoPkg file)) fs.
Proof.
  pose proof (build_request_cases fs) as Hall. split.
  - intros Hnone. by rewrite Hnone in Hall.
  - intros Hex. destruct (build_request fs) as [req|]; [|done].
    destruct Hall as (fds & Hfds & _). exfalso.
    apply Exists_exists in Hex as (file & Hin & Hno).
    apply list_elem_of_lookup in Hin as [i Hi].
    destruct (Forall2_lookup_l _ _ _ _ _ Hfds Hi) as (fd & _ & Hfd).
    by apply Hno, (forwards_occurs file fd).
Qed.

(** X13.  the request that is built lists, for each package in order, the
    converted descriptor of the package followed by a forwarding file that
    depends on it publicly and is named after the part of the old Go package
    before the first semicolon; the files to generate are the forwarding
    files, and the parameter joins one import mapping per package with
    commas. *)
Theorem request_pairs_each_descriptor_with_its_forwarder
    (fs : list Package) (req : CodeGeneratorRequest) :
  build_request fs = Some req ->
  exists fds, Forall2 forwards fs fds /\
    ProtoFile req = concat (zip_with entries fs fds) /\
    FileToGenerate req = map GetName fds /\
    Param req = Some (Join (map mapping fs) ",").
Proof.
  intros Hreq. pose proof (build_request_cases fs) as Hall.
  by rewrite Hreq in Hall.
Qed.

(** X14.  [main] never panics on its slice expression: a run that panics
    does so with an error (of [protogen], [filepath.Rel], [ioutil.WriteFile]
    or [os.Rename]) or, before any call to the system, with the generator's
    message behind "gengo error: ". *)
Theorem main_panics_with_an_error_or_the_generator_message
    (run : bool) (tr tr' : list Event) (p : Fatal) :
  main run tr = Aborted p tr' ->
  (exists err, p = FatalError err) \/
  (exists e, p = FatalString ("gengo error: " +:+ e) /\ tr' = tr).
Proof.
  destruct (main_cases run tr) as (req & _ & Hmain).
  destruct (protogen_New req) as [err|gen].
  { rewrite Hmain. clear Hmain. intros [= <- _]. left. by exists err. }
  cbv zeta in Hmain. destruct (Error _) as [e|]; rewrite Hmain; clear Hmain.
  - intros [= <- <-]. right. by exists e.
  - intros Hw. left. exact (write_files_Aborted _ _ _ _ _ Hw).
Qed.

(** X15.  [main] asks nothing of the system unless the generator was set up
    and reported no error: when a run has made any call, the request was
    built, [protogen] accepted it and the response carries no error. *)
Theorem system_is_untouched_unless_generation_succeeded
    (run : bool) (tr : list Event) :
  trace (main run tr) <> tr ->
  exists req gen,
    build_request files = Some req /\
    protogen_New req = inr gen /\
    Error (Plugin_Response (generate_files gen)) = None.
Proof.
  destruct (main_cases run tr) as (req & Hreq & Hmain). intros Hcalls.
  destruct (protogen_New req) as [err|gen] eqn:Hnew.
  { rewrite Hmain in Hcalls. exfalso. apply Hcalls. reflexivity. }
  cbv zeta in Hmain. destruct (Error _) as [e|] eqn:Herr.
  { rewrite Hmain in Hcalls. exfalso. apply Hcalls. reflexivity. }
  exists req, gen. split; [exact Hreq|]. split; [exact Hnew|exact Herr].
Qed.

(** X16.  a run of [main] that returns has handled every file of the
    response, in order: each file's path relative to
    github.com/golang/protobuf was found, and the calls made are, file by
    file, the write of the [.bak] file followed by the print and the rename
    (execute) or by the diff and the removal (preview), and nothing else. *)
Theorem completed_run_handles_every_generated_file
    (run : bool) (tr tr' : list Event) :
  main run tr = Done tt tr' ->
  exists req gen rels,
    build_request files = Some req /\
    protogen_New req = inr gen /\
    let resp := Plugin_Response (generate_files gen) in
    Error resp = None /\
    Forall2 (fun file relPath => relative file = inr relPath)
            (Files resp) rels /\
    tr' = rev (concat (zip_with (steps run) (Files resp) rels)) ++ tr.
Proof.
  destruct (main_cases run tr) as (req & Hreq & Hmain). intros Hdone.
  destruct (protogen_New req) as [err|gen] eqn:Hnew.
  { rewrite Hmain in Hdone. discriminate Hdone. }
  cbv zeta in Hmain. destruct (Error _) as [e|] eqn:Herr.
  { rewrite Hmain in Hdone. discriminate Hdone. }
  rewrite Hmain in Hdone. clear Hmain.
  apply write_files_Done in Hdone as (rels & Hrels & Htr).
  exists req, gen, rels. cbv zeta. rewrite Herr.
  split; [exact Hreq|]. split; [exact Hnew|]. split; [reflexivity|].
  split; [exact Hrels|exact Htr].
Qed.

(** X17.  without [-execute], [main] leaves every destination alone, however
    the run ends: it never renames and never prints, every file it writes
    or removes has a name ending in [.bak], and the only command it runs is
    [diff] of a path against its [.bak]. *)
Theorem preview_leaves_the_destinations_alone (tr : list Event) :
  exists new, trace (main false tr) = new ++ tr /\ Forall previewing new.
Proof.
  destruct (main_cases false tr) as (req & _ & Hmain).
  destruct (protogen_New req) as [err|gen].
  { rewrite Hmain. exists []. split; [reflexivity|apply Forall_nil_2]. }
  cbv zeta in Hmain. destruct (Error _) as [e|]; rewrite Hmain; clear Hmain.
  - exists []. split; [reflexivity|apply Forall_nil_2].
  - apply (write_files_allowed false).
Qed.

(** X18.  with [-execute], [main] reaches a destination only by renaming
    the [.bak] file of that name onto it, however the run ends: it never
    removes a file and runs no command, every file it writes has a name
    ending in [.bak], and every rename is from a path with [.bak] appended
    to that very path. *)
Theorem execute_replaces_destinations_by_renaming (tr : list Event) :
  exists new, trace (main true tr) = new ++ tr /\ Forall executing new.
Proof.
  destruct (main_cases true tr) as (req & _ & Hmain).
  destruct (protogen_New req) as [err|gen].
  { rewrite Hmain. exists []. split; [reflexivity|apply Forall_nil_2]. }
  cbv zeta in Hmain. destruct (Error _) as [e|]; rewrite Hmain; clear Hmain.
  - exists []. split; [reflexivity|apply Forall_nil_2].
  - apply (write_files_allowed true).
Qed.

End RegenerateFacts.

(** * The claims at work in the small world *)

#[local] Existing Instance Toy.reflection.
#[local] Existing Instance Toy.collaborators.

Lemma Toy_depth (m : nat) : Toy.depth (Toy.toDescriptorProto m) = m.
Proof. induction m as [|m IH]; simpl; [done|by rewrite IH]. Qed.

Lemma Toy_forallb (n : nat) :
  forallb (Byte.eqb Byte.x01) (replicate n Byte.x01) = true.
Proof. induction n as [|n IH]; simpl; [done|exact IH]. Qed.

Lemma Toy_faithful : Faithful.
Proof.
  split.
  - intros b. by exists b.
  - done.
  - intros fd. simpl. unfold Toy.unmarshal.
    by rewrite Toy_forallb, length_replicate, Toy_depth.
  - done.
  - done.
  - by intros [|m].
  - by intros [|m].
  - by intros [|[|m]].
  - done.
Qed.

Lemma Toy_after_bar_reachable : Reachable Toy.after_bar.
Proof. apply (Steps_op init init); [apply Steps_refl|exact I]. Qed.

Lemma Toy_after_legacy_foo_reachable : Reachable Toy.after_legacy_foo.
Proof. apply (Steps_op init init); [apply Steps_refl|exact I]. Qed.

(** C1 at the standalone message, after Bar has been derived. *)
Lemma standalone_descriptor_sentinel_witness :
  Reachable Toy.after_bar /\
  root_file Toy.standalone = None /\
  deriveRawDescriptor Toy.standalone Toy.after_bar
  = Ret (BNil, None) Toy.after_bar /\
  MessageDescriptorProto Toy.a_standalone Toy.after_bar
  = Ret (None, None) (logged [CallMessageTypeOf] Toy.after_bar).
Proof.
  pose proof (standalone_descriptor_sentinel Toy.after_bar Toy.standalone
                Toy_after_bar_reachable eq_refl) as (Hraw & _ & Hmsg).
  split; [exact Toy_after_bar_reachable|].
  split; [reflexivity|].
  split; [exact Hraw|].
  exact (proj2 (Hmsg Toy.a_standalone eq_refl eq_refl)).
Defined.

Lemma Toy_decode_embedded :
  deriveFileDescriptor Toy.embedded init
  = Ret (Toy.toFileDescriptorProto 1) Toy.decoded_embedded.
Proof.
  exact (deriveFileDescriptor_miss (Static 1) Byte.x1f [Byte.x8b; Byte.x01]
           init (Toy.toFileDescriptorProto 1) (lookup_empty _) eq_refl).
Qed.

(** C2 at the message Bar, reached by the path [[0, 0]] that the accessor of
    a legacy value hands out with the embedded buffer, at program start. *)
Lemma navigation_is_locate_witness :
  MessageRawDescriptor Toy.a_legacy_bar init
  = Ret (Toy.embedded, Some [0; 0]) init /\
  Toy.embedded <> BNil /\
  deriveFileDescriptor Toy.embedded init
  = Ret (Toy.toFileDescriptorProto 1) Toy.decoded_embedded /\
  MessageDescriptorProto Toy.a_legacy_bar init
  = Ret (Some (Toy.toFileDescriptorProto 1), Some (Toy.toDescriptorProto 0))
        Toy.decoded_embedded.
Proof.
  assert (Toy.embedded <> BNil) as Hnil by discriminate.
  split; [reflexivity|]. split; [exact Hnil|].
  split; [exact Toy_decode_embedded|].
  exact (proj2 (proj2 navigation_is_locate) Toy.a_legacy_bar init
           Toy.embedded
           [0; 0] init (Toy.toFileDescriptorProto 1) Toy.decoded_embedded
           eq_refl Hnil Toy_decode_embedded).
Defined.

(** C3 at Bar, after Bar has been derived once. *)
Lemma index_path_is_reversed_ascent_witness :
  Reachable Toy.after_bar /\
  root_file Toy.bar = Some 1%nat /\
  exists raw s',
    deriveRawDescriptor Toy.bar Toy.after_bar = Ret (raw, Some [0; 0]) s'.
Proof.
  split; [exact Toy_after_bar_reachable|]. split; [reflexivity|].
  exact (proj1 (index_path_is_reversed_ascent Toy.after_bar
                  Toy_after_bar_reachable) Toy.bar 1%nat eq_refl).
Defined.

(** C5 at Bar: derived at program start and again after
    [MessageDescriptorProto(a_legacy_foo)]. *)
Lemma derivation_is_deterministic_witness :
  Reachable init /\ Reachable Toy.after_legacy_foo /\
  root_file Toy.bar = Some 1%nat /\
  exists base1 base2 data idxs s1' s2',
    deriveRawDescriptor Toy.bar init
    = Ret (BSlice base1 data, Some idxs) s1' /\
    deriveRawDescriptor Toy.bar Toy.after_legacy_foo
    = Ret (BSlice base2 data, Some idxs) s2'.
Proof.
  split; [apply Steps_refl|].
  split; [exact Toy_after_legacy_foo_reachable|]. split; [reflexivity|].
  exact (proj1 (derivation_is_deterministic Toy.bar) init
           Toy.after_legacy_foo 1%nat (Steps_refl init)
           Toy_after_legacy_foo_reachable eq_refl).
Defined.

(** C6, as amended, at a one-byte buffer nobody has decoded. *)
Lemma undecodable_uncached_buffer_panics_witness :
  uncached init (BSlice (Static 1) [Byte.x1f]) /\
  decode [Byte.x1f] = inl "gzip: invalid header" /\
  exists p s',
    deriveFileDescriptor (BSlice (Static 1) [Byte.x1f]) init = Throw p s' /\
    fileDescCache s' = fileDescCache init /\
    rawDescCache s' = rawDescCache init.
Proof.
  split; [reflexivity|]. split; [reflexivity|].
  exact (undecodable_uncached_buffer_panics init
           (BSlice (Static 1) [Byte.x1f]) "gzip: invalid header"
           eq_refl eq_refl).
Defined.

Lemma Toy_after_legacy_foo :
  Toy.after_legacy_foo = Toy.decoded_embedded.
Proof.
  unfold Toy.after_legacy_foo, exec.
  rewrite MessageDescriptorProto_and_then.
  rewrite (bind_Ret (MessageRawDescriptor Toy.a_legacy_foo) _ init init
             (Toy.embedded, Some [0]) eq_refl).
  unfold and_then, Toy.embedded.
  rewrite final_bind_stateless.
  - fold Toy.embedded. by rewrite Toy_decode_embedded.
  - intros fd. apply stateless_bind; [apply stateless_message_at|].
    intros md. apply stateless_ret.
Qed.

(** C6, as stated, fails.  After [MessageDescriptorProto(a_legacy_foo)] the
    embedded buffer is a key of the file-tree cache; its first byte alone
    ([rawDesc[:1]], the same first byte) is not a GZIP stream, and
    [deriveFileDescriptor] returns the cached tree for it. *)
Lemma undecodable_cached_buffer_returns :
  Reachable Toy.after_legacy_foo /\
  decode [Byte.x1f] = inl "gzip: invalid header" /\
  deriveFileDescriptor (BSlice (Static 1) [Byte.x1f]) Toy.after_legacy_foo
  = Ret (Toy.toFileDescriptorProto 1) Toy.after_legacy_foo.
Proof.
  split; [exact Toy_after_legacy_foo_reachable|]. split; [reflexivity|].
  rewrite Toy_after_legacy_foo.
  apply deriveFileDescriptor_hit. apply lookup_insert_eq.
Qed.

(** C7 at Bar, at program start. *)
Lemma round_trip_witness :
  Faithful /\ Reachable init /\ attached Toy.bar /\
  root_file Toy.bar = Some 1%nat /\
  exists md s',
    MessageDescriptorProto Toy.a_bar init
    = Ret (Some (Toy.toFileDescriptorProto 1), Some md) s' /\
    descriptorpb.Name md = Some "Bar".
Proof.
  assert (attached Toy.bar) as Hatt by (simpl; unfold listed; by simpl).
  split; [exact Toy_faithful|]. split; [apply Steps_refl|].
  split; [exact Hatt|]. split; [reflexivity|].
  exact (proj1 (proj2 (round_trip (faithful := Toy_faithful) init Toy.bar
                         1%nat (Steps_refl init) Hatt eq_refl))
           Toy.a_bar 0%nat eq_refl eq_refl eq_refl).
Defined.

(** C8 at the embedded buffer and at a second buffer with the same bytes. *)
Lemma file_cache_keyed_by_identity_witness :
  let data := [Byte.x1f; Byte.x8b; Byte.x01] in
  let fd := Toy.toFileDescriptorProto 1 in
  Static 1 <> Static 2 /\ data <> [] /\
  fileDescCache init !! Static 1 = None /\
  fileDescCache init !! Static 2 = None /\
  decode data = inr fd /\
  exists s1 s2,
    deriveFileDescriptor (BSlice (Static 1) data) init = Ret fd s1 /\
    deriveFileDescriptor (BSlice (Static 2) data) s1 = Ret fd s2 /\
    decodings s2 = (decodings init + 2)%nat /\
    fileDescCache s2 !! Static 1 = Some fd /\
    fileDescCache s2 !! Static 2 = Some fd.
Proof.
  intros data fd.
  assert (Static 1 <> Static 2) as Hne by discriminate.
  assert (data <> []) as Hdata by discriminate.
  split; [exact Hne|]. split; [exact Hdata|].
  split; [reflexivity|]. split; [reflexivity|]. split; [reflexivity|].
  exact (proj2 file_cache_keyed_by_identity init (Static 1) (Static 2) data
           fd Hne Hdata eq_refl eq_refl eq_refl).
Defined.

(** * More of the package at work in the small world *)

Lemma Toy_legacy_bar :
  MessageDescriptorProto Toy.a_legacy_bar init
  = Ret (Some (Toy.toFileDescriptorProto 1), Some (Toy.toDescriptorProto 0))
        Toy.decoded_embedded.
Proof.
  rewrite MessageDescriptorProto_and_then.
  rewrite (bind_Ret (MessageRawDescriptor Toy.a_legacy_bar) _ init init
             (Toy.embedded, Some [0; 0]) eq_refl).
  unfold and_then, Toy.embedded.
  rewrite (bind_Ret (deriveFileDescriptor _) _ init Toy.decoded_embedded
             (Toy.toFileDescriptorProto 1) Toy_decode_embedded).
  rewrite (bind_Ret (message_at _ _) _ Toy.decoded_embedded
             Toy.decoded_embedded (Toy.toDescriptorProto 0));
    [reflexivity|].
  rewrite message_at_locate. reflexivity.
Qed.


(** X3 at the legacy value for Bar: called at program start and again. *)
Lemma repeated_call_is_served_from_the_caches_witness :
  let res := (Some (Toy.toFileDescriptorProto 1),
              Some (Toy.toDescriptorProto 0)) in
  MessageDescriptorProto Toy.a_legacy_bar init
  = Ret res Toy.decoded_embedded /\
  MessageDescriptorProto Toy.a_legacy_bar Toy.decoded_embedded
  = Ret res Toy.decoded_embedded.
Proof.
  intros res. split; [exact Toy_legacy_bar|].
  exact (proj1 repeated_call_is_served_from_the_caches Toy.a_legacy_bar init
           res Toy.decoded_embedded Toy_legacy_bar).
Defined.


(** X6 at the embedded buffer with the empty path, at program start. *)
Lemma missing_declaration_panics_after_caching_witness :
  fileDescCache init !! Static 1 = None /\
  decode [Byte.x1f; Byte.x8b; Byte.x01] = inr (Toy.toFileDescriptorProto 1) /\
  locate_message (Toy.toFileDescriptorProto 1) [] = None /\
  MessageDescriptorProto
    {| message_go_type := 7%positive;
       Descriptor_method := Some (Toy.embedded, Some []) |} init
  = Throw IndexOutOfRange Toy.decoded_embedded.
Proof.
  split; [reflexivity|]. split; [reflexivity|]. split; [reflexivity|].
  exact (proj1 (missing_declaration_panics_after_caching (Static 1) Byte.x1f
                  [Byte.x8b; Byte.x01] [] init (Toy.toFileDescriptorProto 1)
                  (lookup_empty _) eq_refl)
           7%positive eq_refl).
Defined.

(** X7 at the embedded buffer, at program start. *)
Lemma returned_tree_is_cached_or_decoded_witness :
  let fd := Toy.toFileDescriptorProto 1 in
  deriveFileDescriptor Toy.embedded init = Ret fd Toy.decoded_embedded /\
  exists base,
    first_byte Toy.embedded init = Ret base init /\
    fileDescCache Toy.decoded_embedded !! base = Some fd /\
    (fileDescCache init !! base = Some fd \/
     fileDescCache init !! base = None /\
     decode (bytes_of Toy.embedded) = inr fd).
Proof.
  intros fd. split; [exact Toy_decode_embedded|].
  exact (returned_tree_is_cached_or_decoded Toy.embedded init
           Toy.decoded_embedded fd Toy_decode_embedded).
Defined.

Lemma Toy_foo_bar : Toy.foo <> Toy.bar.
Proof. discriminate. Qed.

(** X8 at Foo and Bar, at program start. *)
Lemma declarations_of_a_file_get_separate_buffers_witness :
  Toy.foo <> Toy.bar /\
  root_file Toy.foo = Some 1%nat /\ root_file Toy.bar = Some 1%nat /\
  exists p1 p2 idxs1 idxs2 s1 s2,
    deriveRawDescriptor Toy.foo init
    = Ret (BSlice (Heap p1) (raw_bytes 1%nat), Some idxs1) s1 /\
    deriveRawDescriptor Toy.bar s1
    = Ret (BSlice (Heap p2) (raw_bytes 1%nat), Some idxs2) s2 /\
    p1 <> p2 /\
    calls s2 = CallCompressGZIP :: CallMarshal :: CallCompressGZIP
               :: CallMarshal :: calls init.
Proof.
  split; [exact Toy_foo_bar|]. split; [reflexivity|]. split; [reflexivity|].
  exact (declarations_of_a_file_get_separate_buffers init Toy.foo Toy.bar
           1%nat Toy_foo_bar eq_refl eq_refl (lookup_empty _)
           (lookup_empty _)).
Defined.

(** X9 at Bar, after Bar has been derived once. *)
Lemma derived_pair_is_nil_or_complete_witness :
  Reachable Toy.after_bar /\
  exists out s',
    deriveRawDescriptor Toy.bar Toy.after_bar = Ret out s' /\
    (out = (BNil, None) \/
     exists base data idxs,
       out = (BSlice base data, Some idxs) /\
       length idxs = length (leaf_to_root Toy.bar) /\ idxs <> []).
Proof.
  split; [exact Toy_after_bar_reachable|].
  exact (derived_pair_is_nil_or_complete Toy.after_bar Toy.bar
           Toy_after_bar_reachable).
Defined.

Lemma Toy_all_called : all_called [Called Toy.bar; Called Toy.bar].
Proof.
  apply Forall_cons_2; [by exists Toy.bar|].
  apply Forall_cons_2; [by exists Toy.bar|]. apply Forall_nil_2.
Qed.

(** X10 at two calls for Bar that race at program start. *)
Lemma concurrent_calls_return_one_buffer_witness :
  exists s' out1 out2,
    Reachable init /\
    all_called [Called Toy.bar; Called Toy.bar] /\
    Interleaving (init, [Called Toy.bar; Called Toy.bar])
                 (s', [Returned Toy.bar out1; Returned Toy.bar out2]) /\
    out1 = out2.
Proof.
  destruct (race init Toy.bar 1%nat (lookup_empty _) eq_refl)
    as (p1 & p2 & s' & _ & Hrun & _).
  eexists s', _, _.
  split; [apply Steps_refl|]. split; [exact Toy_all_called|].
  split; [exact Hrun|].
  exact (concurrent_calls_return_one_buffer init s' _ _ 0%nat 1%nat Toy.bar
           _ _ (Steps_refl init) Toy_all_called Hrun eq_refl eq_refl).
Defined.

(** X11 at Bar, at program start. *)
Lemma losing_derivation_is_discarded_witness :
  rawDescCache init !! Toy.bar = None /\ root_file Toy.bar = Some 1%nat /\
  exists p1 p2 s',
    let idxs := rev (leaf_to_root Toy.bar) in
    let won := BSlice (Heap p1) (raw_bytes 1%nat) in
    p1 <> p2 /\
    Interleaving (init, [Called Toy.bar; Called Toy.bar])
                 (s', [Returned Toy.bar (won, Some idxs);
                       Returned Toy.bar (won, Some idxs)]) /\
    rawDescCache s' !! Toy.bar = Some (mkRawDesc won (Some idxs)) /\
    heap s' !! p2 = Some (raw_bytes 1%nat) /\
    calls s' = CallCompressGZIP :: CallMarshal :: CallCompressGZIP
               :: CallMarshal :: calls init.
Proof.
  split; [apply lookup_empty|]. split; [reflexivity|].
  exact (losing_derivation_is_discarded init Toy.bar 1%nat (lookup_empty _)
           eq_refl).
Defined.

(** * The regeneration command at work in the small toolchain *)

Lemma Toy_main_execute :
  Regenerate.main (H0 := ToyRegenerate.working) true []
  = Regenerate.Done tt ToyRegenerate.executed.
Proof.
  destruct (main_cases (H0 := ToyRegenerate.working) true [])
    as (req & _ & Hmain).
  exact Hmain.
Qed.

Lemma Toy_main_refused :
  Regenerate.main (H0 := ToyRegenerate.refusing) true []
  = Regenerate.Aborted (Regenerate.FatalError "no such file") [].
Proof.
  destruct (main_cases (H0 := ToyRegenerate.refusing) true [])
    as (req & _ & Hmain).
  exact Hmain.
Qed.

(** X13 at a table of one package. *)
Lemma request_pairs_each_descriptor_with_its_forwarder_witness :
  Regenerate.build_request [ToyRegenerate.package]
  = Some ToyRegenerate.request /\
  exists fds,
    Forall2 forwards [ToyRegenerate.package] fds /\
    Regenerate.ProtoFile ToyRegenerate.request
    = concat (zip_with entries [ToyRegenerate.package] fds) /\
    Regenerate.FileToGenerate ToyRegenerate.request
    = map Regenerate.GetName fds /\
    Regenerate.Param ToyRegenerate.request
    = Some (Regenerate.Join (map mapping [ToyRegenerate.package]) ",").
Proof.
  split; [reflexivity|].
  exact (request_pairs_each_descriptor_with_its_forwarder
           (H := ToyRegenerate.schema)
           [ToyRegenerate.package] ToyRegenerate.request eq_refl).
Defined.

(** X14 at a run whose request [protogen] refuses. *)
Lemma main_panics_with_an_error_or_the_generator_message_witness :
  let p := Regenerate.FatalError "no such file" in
  Regenerate.main (H0 := ToyRegenerate.refusing) true []
  = Regenerate.Aborted p [] /\
  ((exists err, p = Regenerate.FatalError err) \/
   (exists e, p = Regenerate.FatalString ("gengo error: " +:+ e) /\
              @nil Regenerate.Event = [])).
Proof.
  intros p. split; [exact Toy_main_refused|].
  exact (main_panics_with_an_error_or_the_generator_message
           (H0 := ToyRegenerate.refusing) true [] [] p Toy_main_refused).
Defined.

Lemma Toy_main_calls :
  Regenerate.trace (Regenerate.main (H0 := ToyRegenerate.working) true [])
  <> [].
Proof. rewrite Toy_main_execute. discriminate. Qed.

(** X15 at a run with [-execute] in the working toolchain. *)
Lemma system_is_untouched_unless_generation_succeeded_witness :
  Regenerate.trace (Regenerate.main (H0 := ToyRegenerate.working) true [])
  <> [] /\
  exists req gen,
    Regenerate.build_request Regenerate.files = Some req /\
    Regenerate.protogen_New (Toolchain := ToyRegenerate.working) req
    = inr gen /\
    Regenerate.Error
      (Regenerate.Plugin_Response
         (Regenerate.generate_files (H0 := ToyRegenerate.working) gen))
    = None.
Proof.
  split; [exact Toy_main_calls|].
  exact (system_is_untouched_unless_generation_succeeded
           (H0 := ToyRegenerate.working) true [] Toy_main_calls).
Defined.

(** X16 at a run with [-execute] in the working toolchain. *)
Lemma completed_run_handles_every_generated_file_witness :
  Regenerate.main (H0 := ToyRegenerate.working) true []
  = Regenerate.Done tt ToyRegenerate.executed /\
  exists req gen rels,
    Regenerate.build_request Regenerate.files = Some req /\
    Regenerate.protogen_New (Toolchain := ToyRegenerate.working) req
    = inr gen /\
    let resp :=
      Regenerate.Plugin_Response
        (Regenerate.generate_files (H0 := ToyRegenerate.working) gen) in
    Regenerate.Error resp = None /\
    Forall2 (fun file relPath =>
               relative (H0 := ToyRegenerate.working) file = inr relPath)
            (Regenerate.Files resp) rels /\
    ToyRegenerate.executed
    = rev (concat (zip_with (steps true) (Regenerate.Files resp) rels))
      ++ [].
Proof.
  split; [exact Toy_main_execute|].
  exact (completed_run_handles_every_generated_file
           (H0 := ToyRegenerate.working) true [] ToyRegenerate.executed
           Toy_main_execute).
Defined.
